(** * TRAVEL_PLANNER: the planner core, embedded and verified

    A shallow embedding of [src/python/planner] (preferences.py, weather.py,
    pipeline.py, places.py).

    Conventions of the embedding.
    - Python [int] is [Z]; Python [str] is [string], ordered by code point
      ([String.compare]).
    - Python [float] is an exact rational [Q]: rounding of the binary64
      operations is left out.  The division of two integers and the
      [floor] of its result are therefore exact.
    - A Python [dict] with string keys is an association list in insertion
      order whose keys are pairwise distinct ([dict_set] keeps them so).
    - [sorted] and [list.sort] are stable; they are a stable insertion sort
      over the strict order the Python comparison decides.
    - The trigonometric functions of [math] and the collaborators behind
      HTTP (places search, weather, geocoding) are parameters. *)

From Stdlib Require Import String Ascii.
From Stdlib Require Import List ZArith QArith Qround Bool Lia Lqa.
From Stdlib Require Import Permutation Sorted OrderedTypeEx.
Import ListNotations.

Local Open Scope Z_scope.

(** ** Python built-ins used by the planner *)

Module Py.

Section Sorting.
Context {A : Type}.
Variable lt : A -> A -> bool.

(** [insert x l] puts [x] in front of the first element that is not
    strictly below it: an element that comes earlier in the input stays
    ahead of the later ones it ties with. *)
Fixpoint insert (x : A) (l : list A) : list A :=
  match l with
  | [] => [x]
  | y :: ys => if lt y x then y :: insert x ys else x :: y :: ys
  end.

(** [sorted(l)] for the strict order [lt]. *)
Definition sorted (l : list A) : list A := fold_right insert [] l.

(** [a] may stand before [b] in a sorted list: [b] is not below [a]. *)
Definition before (a b : A) : Prop := lt b a = false.

(** [min(l, key=...)]: the first of the least elements. *)
Fixpoint min_from (best : A) (l : list A) : A :=
  match l with
  | [] => best
  | x :: xs => min_from (if lt x best then x else best) xs
  end.

Definition min (l : list A) : option A :=
  match l with
  | [] => None
  | x :: xs => Some (min_from x xs)
  end.

(** [max(l, key=...)]: the first of the greatest elements. *)
Fixpoint max_from (best : A) (l : list A) : A :=
  match l with
  | [] => best
  | x :: xs => max_from (if lt best x then x else best) xs
  end.

Definition max (l : list A) : option A :=
  match l with
  | [] => None
  | x :: xs => Some (max_from x xs)
  end.
End Sorting.

(** [sorted(l, reverse=True)]: descending, ties still in input order. *)
Definition sorted_reverse {A : Type} (lt : A -> A -> bool) (l : list A) : list A :=
  sorted (fun a b => lt b a) l.

(** [sum] of integers. *)
Definition sum (l : list Z) : Z := fold_right Z.add 0 l.

(** [l[:k]] and [l[k:]] for an integer [k] of either sign. *)
Definition slice_to {A : Type} (k : Z) (l : list A) : list A :=
  if 0 <=? k then firstn (Z.to_nat k) l
  else firstn (length l - Z.to_nat (- k)) l.

Definition slice_from {A : Type} (k : Z) (l : list A) : list A :=
  if 0 <=? k then skipn (Z.to_nat k) l
  else skipn (length l - Z.to_nat (- k)) l.

(** Comparison of floats. *)
Definition Qltb (a b : Q) : bool :=
  match (a ?= b)%Q with Lt => true | _ => false end.

(** Elements tagged with their position in the input, to speak about the
    stability of a descending sort by [key]: [higher] is the comparison the
    sort makes, [ranked a b] says that [a] has the larger key or, for equal
    keys, the earlier position. *)
Definition higher {B : Type} (key : B -> Q) (a b : nat * B) : bool :=
  Qltb (key (snd b)) (key (snd a)).

Definition ranked {B : Type} (key : B -> Q) (a b : nat * B) : Prop :=
  (key (snd b) < key (snd a))%Q
  \/ ((key (snd a) == key (snd b))%Q /\ (fst a < fst b)%nat).

(** [str.lower] on the ASCII range. *)
Definition lower_ascii (c : ascii) : ascii :=
  let n := nat_of_ascii c in
  if (Nat.leb 65 n && Nat.leb n 90)%bool then ascii_of_nat (n + 32) else c.

Fixpoint lower (s : string) : string :=
  match s with
  | EmptyString => EmptyString
  | String c r => String (lower_ascii c) (lower r)
  end.

(** *** Dictionaries keyed by strings *)

Definition dict (V : Type) : Type := list (string * V).

Section Dict.
Context {V : Type}.

Fixpoint dict_get (d : dict V) (k : string) : option V :=
  match d with
  | [] => None
  | (k', v) :: r => if String.eqb k' k then Some v else dict_get r k
  end.

(** [d[k]] where the key is known to be present; [dflt] stands for the
    [KeyError] that the planner never reaches. *)
Definition dict_at (dflt : V) (d : dict V) (k : string) : V :=
  match dict_get d k with Some v => v | None => dflt end.

(** [d[k] = v]: in place when the key exists, appended otherwise. *)
Fixpoint dict_set (d : dict V) (k : string) (v : V) : dict V :=
  match d with
  | [] => [(k, v)]
  | (k', v') :: r =>
      if String.eqb k' k then (k', v) :: r else (k', v') :: dict_set r k v
  end.

(** [del d[k]]. *)
Fixpoint dict_del (d : dict V) (k : string) : dict V :=
  match d with
  | [] => []
  | (k', v') :: r =>
      if String.eqb k' k then r else (k', v') :: dict_del r k
  end.

(** [{k: v for k, v in items}] and [dict(items)]. *)
Definition dict_of_items (items : list (string * V)) : dict V :=
  fold_left (fun d kv => dict_set d (fst kv) (snd kv)) items [].

Definition keys (d : dict V) : list string := map fst d.
Definition values (d : dict V) : list V := map snd d.
End Dict.

End Py.

(** ** preferences.py *)

Module Preferences.
Import Py.

(** The tuples [(raw[c] - base[c], c)] compare by the fraction first and by
    the category name when the fractions are equal. *)
Definition frac_lt (a b : Q * string) : bool :=
  if Qeq_bool (fst a) (fst b) then String.ltb (snd a) (snd b)
  else Qltb (fst a) (fst b).

(** [base[c] += 1]. *)
Definition incr (base : dict Z) (c : string) : dict Z :=
  dict_set base c (dict_at 0 base c + 1).

(** Line 25: the raw proportional shares. *)
Definition raw_shares (weights : list (string * Z)) (n_total total_w : Z) : dict Q :=
  dict_of_items
    (map (fun cw => (fst cw, (inject_Z (n_total * snd cw) / inject_Z total_w)%Q))
         weights).

(** Line 26: their floors. *)
Definition floors (raw : dict Q) : dict Z :=
  map (fun cv => (fst cv, Qfloor (snd cv))) raw.

(** Line 29: the fractional parts with their categories, largest first. *)
Definition fractions (weights : list (string * Z)) (raw : dict Q) (base : dict Z)
  : list (Q * string) :=
  sorted_reverse frac_lt
    (map (fun cw => ((dict_at 0%Q raw (fst cw)
                      - inject_Z (dict_at 0%Z base (fst cw)))%Q, fst cw))
         weights).

(** Lines 30-31: one unit for each of the first [rem] entries of [frac],
    cyclically. *)
Definition distribute (frac : list (Q * string)) (rem : Z) (base : dict Z) : dict Z :=
  fold_left
    (fun b i => incr b (snd (nth (Nat.modulo i (length frac)) frac (0%Q, EmptyString))))
    (seq 0 (Z.to_nat rem)) base.

(** preferences.py, lines 21-32. *)
Definition proportional_quotas (weights : list (string * Z)) (n_total : Z) : dict Z :=
  let total_w := sum (map snd weights) in
  if (total_w =? 0) || (n_total <=? 0) then
    dict_of_items (map (fun cw => (fst cw, 0)) weights)
  else
    let raw := raw_shares weights n_total total_w in
    let base := floors raw in
    let rem := n_total - sum (values base) in
    if 0 <? rem then
      let frac := fractions weights raw base in
      distribute frac rem base
    else base.

(** *** The preference table

    [PREFS] is read from [prefs/preferences.csv] by [load_prefs]; the file
    is not part of the sources, so the loaded table is an argument.  A row
    carries the three columns the planner reads. *)
Record pref_row : Type := {
  row_traveler_type : string;
  row_cat_norm : string;
  row_weight : Z
}.

(** [tprefs.groupby(["cat_norm"], as_index=False)["weight"].max()]: one row
    for each category, categories ascending, with the largest weight of the
    group. *)
Fixpoint group_insert (c : string) (w : Z) (g : list (string * Z)) : list (string * Z) :=
  match g with
  | [] => [(c, w)]
  | (c', w') :: r =>
      if String.eqb c' c then (c', Z.max w' w) :: r
      else if String.ltb c c' then (c, w) :: (c', w') :: r
      else (c', w') :: group_insert c w r
  end.

Definition groupby_max (rows : list pref_row) : list (string * Z) :=
  fold_left (fun g r => group_insert (row_cat_norm r) (row_weight r) g) rows [].

(** The groups come out with their categories in strictly ascending order. *)
Definition ascending (g : list (string * Z)) : Prop :=
  StronglySorted (fun a b => String.ltb (fst a) (fst b) = true) g.

(** What [groupby_max] has made of the rows [seen] so far: ascending
    categories, each with a weight one of its rows has, no row of the
    category above it, and every row's category present. *)
Definition grouped (g : list (string * Z)) (seen : list pref_row) : Prop :=
  ascending g
  /\ (forall c w, In (c, w) g ->
        exists r, In r seen /\ row_cat_norm r = c /\ row_weight r = w)
  /\ (forall c w, In (c, w) g ->
        forall r, In r seen -> row_cat_norm r = c -> row_weight r <= w)
  /\ (forall r, In r seen -> In (row_cat_norm r) (keys g)).

(** [.sort_values(["weight","cat_norm"], ascending=[False,True])]. *)
Definition weight_cat_lt (a b : string * Z) : bool :=
  if snd a =? snd b then String.ltb (fst a) (fst b) else snd b <? snd a.

(** The numbers of the sort keys: integers and the two infinities. *)
Inductive ext : Type := NegInf | Fin (z : Z) | PosInf.

Definition ext_neg (x : ext) : ext :=
  match x with NegInf => PosInf | Fin z => Fin (- z) | PosInf => NegInf end.

Definition ext_eqb (x y : ext) : bool :=
  match x, y with
  | NegInf, NegInf | PosInf, PosInf => true
  | Fin a, Fin b => a =? b
  | _, _ => false
  end.

Definition ext_ltb (x y : ext) : bool :=
  match x, y with
  | NegInf, (Fin _ | PosInf) => true
  | Fin a, Fin b => a <? b
  | Fin _, PosInf => true
  | _, _ => false
  end.

(** What [weight_map.get] is asked for: a category name, or an item
    [(category, quota)] of [quotas.items()]. *)
Inductive lookup_key : Type :=
  | KStr (c : string)
  | KItem (kv : string * Z).

(** [weight_map.get(k, dflt)].  The keys of [weight_map] are category
    names; a tuple is equal to none of them. *)
Definition weight_map_get (weight_map : dict Z) (k : lookup_key) (dflt : ext) : ext :=
  match k with
  | KStr c => match dict_get weight_map c with Some w => Fin w | None => dflt end
  | KItem _ => dflt
  end.

(** Order of the items [(category, quota)] as tuples. *)
Definition item_lt (a b : string * Z) : bool :=
  if String.eqb (fst a) (fst b) then snd a <? snd b else String.ltb (fst a) (fst b).

Definition item_eqb (a b : string * Z) : bool :=
  String.eqb (fst a) (fst b) && (snd a =? snd b).

(** Line 56: [key=lambda kv: (-kv[1], -weight_map.get(kv, -inf), kv)]. *)
Definition cand_key (weight_map : dict Z) (kv : string * Z) : Z * ext * (string * Z) :=
  (- snd kv, ext_neg (weight_map_get weight_map (KItem kv) NegInf), kv).

Definition cand_key_lt (a b : Z * ext * (string * Z)) : bool :=
  let '(q1, w1, kv1) := a in
  let '(q2, w2, kv2) := b in
  if negb (q1 =? q2) then q1 <? q2
  else if negb (ext_eqb w1 w2) then ext_ltb w1 w2
  else item_lt kv1 kv2.

(** Line 67: [key=lambda kv: (kv[1], weight_map.get(kv, -inf))]. *)
Definition max_key (weight_map : dict Z) (kv : string * Z) : Z * ext :=
  (snd kv, weight_map_get weight_map (KItem kv) NegInf).

Definition max_key_lt (a b : Z * ext) : bool :=
  if negb (fst a =? fst b) then fst a <? fst b else ext_ltb (snd a) (snd b).

(** The variables of the loop of lines 54-71. *)
Record state : Type := {
  quotas : dict Z;
  result : list string;
  last : option string
}.

(** [cat != last], with [last] initially [None]. *)
Definition differs (cat : string) (last : option string) : bool :=
  match last with
  | None => true
  | Some l => negb (String.eqb cat l)
  end.

(** Lines 60-63 and 68-71: append, decrement, delete an exhausted entry. *)
Definition place_category (st : state) (cat : string) (q : Z) : state :=
  let quotas1 := dict_set (quotas st) cat (q - 1) in
  let quotas2 :=
    if dict_at 0 quotas1 cat <=? 0 then dict_del quotas1 cat else quotas1 in
  {| quotas := quotas2; result := result st ++ [cat]; last := Some cat |}.

(** One iteration of the [while] loop (lines 56-71).  The loop runs it on
    a non-empty [quotas] only, where [max] has a value. *)
Definition body (weight_map : dict Z) (st : state) : state :=
  let cand :=
    sorted (fun a b => cand_key_lt (cand_key weight_map a) (cand_key weight_map b))
           (quotas st) in
  match find (fun kv => differs (fst kv) (last st) && (0 <? snd kv)) cand with
  | Some (cat, q) => place_category st cat q
  | None =>
      match max (fun a b => max_key_lt (max_key weight_map a) (max_key weight_map b))
                (quotas st) with
      | Some (cat, q) => place_category st cat q
      | None => st
      end
  end.

(** [len(result) < n_keep and quotas]. *)
Definition guard (n_keep : Z) (st : state) : bool :=
  (Z.of_nat (length (result st)) <? n_keep)
  && match quotas st with [] => false | _ :: _ => true end.

(** The loop, run for at most [fuel] iterations. *)
Fixpoint while (fuel : nat) (n_keep : Z) (weight_map : dict Z) (st : state) : state :=
  match fuel with
  | O => st
  | S fuel' =>
      if guard n_keep st then while fuel' n_keep weight_map (body weight_map st)
      else st
  end.

(** Lines 39-44. *)
Definition cat_weights (tprefs : list pref_row) : list (string * Z) :=
  sorted weight_cat_lt (groupby_max tprefs).

Definition select_traveler (PREFS : list pref_row) (traveler_type : string) : list pref_row :=
  filter (fun r => String.eqb (lower (row_traveler_type r)) (lower traveler_type)) PREFS.

Definition initial_quotas (weights : list (string * Z)) (n_keep : Z) : dict Z :=
  filter (fun cq => 0 <? snd cq) (proportional_quotas weights n_keep).

Definition initial_state (weights : list (string * Z)) (n_keep : Z) : state :=
  {| quotas := initial_quotas weights n_keep; result := []; last := None |}.

(** preferences.py, lines 34-72.  Every iteration appends one category,
    so [n_keep] iterations are all the loop can make. *)
Definition build_weighted_sequence
    (PREFS : list pref_row) (traveler_type : string) (days : Z) : list string :=
  let tprefs := select_traveler PREFS traveler_type in
  match tprefs with
  | [] => []
  | _ :: _ =>
      let weights := cat_weights tprefs in
      let weight_map := dict_of_items weights in
      let n_keep := Z.max (days * 3 - 1) 0 in
      if n_keep =? 0 then []
      else
        let st := while (Z.to_nat n_keep) n_keep weight_map
                        (initial_state weights n_keep) in
        slice_to n_keep (result st)
  end.

(** The loop variables after [k] iterations (the final ones, once the loop
    has ended) in the call [build_weighted_sequence(traveler_type, days)]. *)
Definition loop_state
    (PREFS : list pref_row) (traveler_type : string) (days : Z) (k : nat) : state :=
  let weights := cat_weights (select_traveler PREFS traveler_type) in
  let n_keep := Z.max (days * 3 - 1) 0 in
  while k n_keep (dict_of_items weights) (initial_state weights n_keep).

(** A dict of remaining quotas: distinct categories, positive counts. *)
Definition remaining (d : dict Z) : Prop :=
  NoDup (keys d) /\ forall c q, In (c, q) d -> 0 < q.

(** preferences.py, lines 74-80. *)
Fixpoint sequence_to_days_loop (n : nat) (seq : list string) (i : nat) : list (list string) :=
  match n with
  | O => []
  | S n' => firstn 3 (skipn i seq) :: sequence_to_days_loop n' seq (i + 3)
  end.

Definition sequence_to_days (seq : list string) (days : Z) : list (list string) :=
  sequence_to_days_loop (Z.to_nat days) seq 0.

End Preferences.

(** ** weather.py *)

Module Weather.
Import Py.

(** A daily summary as [daily_forecast] builds it.  A field is [None] when
    its key is missing or holds [None]; the empty dict is the record with
    no field set. *)
Record forecast : Type := {
  date : option string;
  avg_temp_c : option Q;
  avg_pop : option Q;
  condition : option string
}.

Definition INDOOR_CATS : list string :=
  ["museums"; "cafes"; "shopping_malls"; "markets"; "temples"; "theaters";
   "cultural_centers"; "aquariums"; "science_centers"; "libraries";
   "art_galleries"]%string.

Definition indoor (c : string) : bool := existsb (String.eqb c) INDOOR_CATS.

(** weather.py, lines 42-55. *)
Definition prefer_indoor_if_rain
    (categories : list string) (fc : option forecast) : list string :=
  match fc with
  | None => categories
  | Some f =>
      match avg_pop f with
      | None => categories
      | Some p =>
          let rainy := Qle_bool (1 # 2) p in
          if negb rainy then categories
          else
            let indoors := filter indoor categories in
            let outdoors := filter (fun c => negb (indoor c)) categories in
            let mixed := slice_to 3 (indoors ++ outdoors) in
            mixed ++ slice_from 3 categories
      end
  end.

End Weather.

Import Py Preferences Weather.

(** ** Exceptions *)

(** [Unfinished] is not a Python exception: it marks a loop that was cut
    off by the bound on its iterations.  On places the router is shown
    never to return it. *)
Inductive exn : Type :=
  | TypeError (msg : string)
  | ValueError (msg : string)
  | Unfinished.

Inductive outcome (A : Type) : Type :=
  | Ok (a : A)
  | Raise (e : exn).
Arguments Ok {A} a.
Arguments Raise {A} e.

Definition bind {A B : Type} (m : outcome A) (f : A -> outcome B) : outcome B :=
  match m with
  | Ok a => f a
  | Raise e => Raise e
  end.

Notation "x <- m ;; k" := (bind m (fun x => k))
  (at level 61, m at next level, right associativity).

(** Evaluate [f] on every element, left to right, up to the first raise. *)
Fixpoint map_outcome {A B : Type} (f : A -> outcome B) (l : list A) : outcome (list B) :=
  match l with
  | [] => Ok []
  | x :: xs => y <- f x ;; ys <- map_outcome f xs ;; Ok (y :: ys)
  end.

(** ** places.py and pipeline.py *)

(** A place as [places_text_search] and [candidates_for_category] build
    it.  [rating] is optional for [score_candidates], which reads it with
    [x.get("rating", 0)]. *)
Record candidate : Type := {
  name : option string;
  rating : option Q;
  address : option string;
  place_id : option string;
  lat : Q;
  lng : Q;
  types : list string;
  category : string
}.

(** [==] on places: every field equal. *)
Definition Q_eq_dec (a b : Q) : {a = b} + {a <> b}.
Proof. decide equality; [apply Pos.eq_dec | apply Z.eq_dec]. Defined.

Definition candidate_eq_dec (a b : candidate) : {a = b} + {a <> b}.
Proof.
  decide equality;
    try apply string_dec; try apply Q_eq_dec;
    try (apply list_eq_dec; apply string_dec);
    try (decide equality; try apply string_dec; apply Q_eq_dec).
Defined.

Definition latlng : Type := (Q * Q)%type.

Record slot : Type := {
  part : string;
  place : list candidate
}.

Record day_plan : Type := {
  plan_date : option string;
  plan_weather : option forecast;
  plan_categories : list string;
  plan_slots : list slot;
  plan_alternatives : list (string * list candidate)
}.

Record itinerary : Type := {
  it_destination : string;
  it_latlng : latlng;
  it_traveler_type : string;
  it_plan : list day_plan;
  it_llm_notes : option string
}.

Section Planner.

(** [radians], [sin], [cos], [sqrt] and [atan2] of the [math] module. *)
Variables radians sin cos sqrt : Q -> Q.
Variable atan2 : Q -> Q -> Q.

(** places.py, lines 98-103. *)
Definition haversine (a b : latlng) : Q :=
  let R := 6371%Q in
  let '(lat1, lon1) := a in
  let '(lat2, lon2) := b in
  let dlat := radians (lat2 - lat1)%Q in
  let dlon := radians (lon2 - lon1)%Q in
  let x := ((sin (dlat / 2)) ^ 2
            + cos (radians lat1) * cos (radians lat2) * (sin (dlon / 2)) ^ 2)%Q in
  (2 * R * atan2 (sqrt x) (sqrt (1 - x)))%Q.

Section Route.
(** The elements of [points], with their [==] and the reading of
    [(p["lat"], p["lng"])]. *)
Context {P : Type}.
Variable P_eq_dec : forall a b : P, {a = b} + {a <> b}.
Variable latlng_of : P -> outcome latlng.

(** [unused.remove(nxt)]: drop the first element equal to [nxt]. *)
Fixpoint remove_first (x : P) (l : list P) : list P :=
  match l with
  | [] => []
  | y :: ys => if P_eq_dec x y then ys else y :: remove_first x ys
  end.

(** [min(unused, key=lambda p: haversine(cur, (p["lat"], p["lng"])))]. *)
Definition nearest (cur : latlng) (unused : list P) : outcome P :=
  keyed <- map_outcome
             (fun p => ll <- latlng_of p ;; Ok (haversine cur ll, p)) unused ;;
  match Py.min (fun a b => Qltb (fst a) (fst b)) keyed with
  | Some kp => Ok (snd kp)
  | None => Raise (ValueError "min() arg is an empty sequence")
  end.

(** The loop of lines 108-112; [fuel] bounds its iterations. *)
Fixpoint route_loop (fuel : nat) (cur : latlng) (unused route : list P)
  : outcome (list P) :=
  match unused with
  | [] => Ok route
  | _ :: _ =>
      match fuel with
      | O => Raise Unfinished
      | S fuel' =>
          nxt <- nearest cur unused ;;
          cur' <- latlng_of nxt ;;
          route_loop fuel' cur' (remove_first nxt unused) (route ++ [nxt])
      end
  end.

(** places.py, lines 105-113.  Each iteration removes one element of
    [unused], so [len(points)] iterations empty it. *)
Definition nearest_route (start_latlng : latlng) (points : list P)
  : outcome (list P) :=
  route_loop (length points) start_latlng points [].
End Route.

(** A place is a dict with the keys ["lat"] and ["lng"]. *)
Definition place_latlng (p : candidate) : outcome latlng := Ok (lat p, lng p).

(** The route the claim describes: from [cur], the next stop is an unvisited
    place at the least distance, and the rest is such a route from there. *)
Inductive greedy_route : latlng -> list candidate -> list candidate -> Prop :=
  | greedy_done (cur : latlng) : greedy_route cur [] []
  | greedy_next (cur : latlng) (unused : list candidate) (nxt : candidate)
                (rest : list candidate) :
      In nxt unused ->
      (forall p, In p unused ->
         (haversine cur (lat nxt, lng nxt) <= haversine cur (lat p, lng p))%Q) ->
      greedy_route (lat nxt, lng nxt) (remove_first candidate_eq_dec nxt unused) rest ->
      greedy_route cur unused (nxt :: rest).

(** Indexing a list with a string. *)
Definition list_latlng (p : list candidate) : outcome latlng :=
  Raise (TypeError "list indices must be integers or slices, not str").

(** *** pipeline.py *)

(** [x.get("rating", 0)]. *)
Definition rating_of (x : candidate) : Q :=
  match rating x with Some r => r | None => 0%Q end.

Definition min_of (l : list Q) : Q :=
  match Py.min Qltb l with Some m => m | None => 0%Q end.

Definition max_of (l : list Q) : Q :=
  match Py.max Qltb l with Some m => m | None => 0%Q end.

(** Lines 22-24. *)
Definition normalise (v vmin vmax : Q) : Q :=
  if Qeq_bool vmax vmin then 0%Q else ((v - vmin) / (vmax - vmin))%Q.

Definition blend (rn dn : Q) : Q := ((6 # 10) * rn + (4 # 10) * (1 - dn))%Q.

(** Lines 16-25: the list [scored]. *)
Definition scored_items (start_latlng : latlng) (items : list candidate)
  : list (Q * candidate) :=
  let dists := map (fun x => haversine start_latlng (lat x, lng x)) items in
  let ratings := map rating_of items in
  let dmin := min_of dists in
  let dmax := max_of dists in
  let rmin := min_of ratings in
  let rmax := max_of ratings in
  map (fun xdr =>
         let '(x, d, r) := xdr in
         let dn := normalise d dmin dmax in
         let rn := normalise r rmin rmax in
         (blend rn dn, x))
      (combine (combine items dists) ratings).

(** pipeline.py, lines 11-27. *)
Definition score_candidates (start_latlng : latlng) (items : list candidate) (k : Z)
  : list candidate :=
  match items with
  | [] => []
  | _ :: _ =>
      let scored := scored_items start_latlng items in
      let scored' := sorted_reverse (fun a b => Qltb (fst a) (fst b)) scored in
      map snd (slice_to k scored')
  end.

(** The collaborators of [generate_itinerary]. *)
Variable PREFS : list pref_row.
Variable geocode_city : string -> option latlng.
Variable daily_forecast : Q -> Q -> Z -> list forecast.
Variable candidates_for_category : latlng -> Q -> string -> Z -> list candidate.
Variable groq_refine : string -> latlng -> string -> list day_plan -> outcome (option string).

(** Lines 72-77: the shortlist of a day. *)
Fixpoint shortlists (ll : latlng) (cats : list string) : list (string * list candidate) :=
  match cats with
  | [] => []
  | c :: rest =>
      let cand := candidates_for_category ll (snd ll) c 10 in
      let picks := score_candidates ll cand 3 in
      match picks with
      | [] => shortlists ll rest
      | _ :: _ => (c, picks) :: shortlists ll rest
      end
  end.

Definition nonempty {A : Type} (l : list A) : bool :=
  match l with [] => false | _ :: _ => true end.

(** Lines 65-98: the body of the loop over the days. *)
Definition plan_day (ll : latlng) (forecasts : list forecast)
    (i : nat) (cats0 : list string) : outcome day_plan :=
  let cats1 := filter (fun c => negb (String.eqb c "")) cats0 in
  let fcast := nth_error forecasts i in
  let cats := prefer_indoor_if_rain cats1 fcast in
  let day_shortlists := shortlists ll cats in
  let chosen := filter nonempty (map snd day_shortlists) in
  route <- nearest_route (list_eq_dec candidate_eq_dec) list_latlng ll chosen ;;
  let slots :=
    map (fun pp => {| part := fst pp; place := snd pp |})
        (combine ["Morning"; "Afternoon"; "Evening"]%string route) in
  Ok {| plan_date := match nth_error forecasts i with
                     | Some f => date f
                     | None => None
                     end;
        plan_weather := fcast;
        plan_categories := cats;
        plan_slots := slots;
        plan_alternatives :=
          map (fun sl => (fst sl, firstn 2 (skipn 1 (snd sl)))) day_shortlists |}.

Fixpoint plan_days (ll : latlng) (forecasts : list forecast)
    (i : nat) (per_day : list (list string)) : outcome (list day_plan) :=
  match per_day with
  | [] => Ok []
  | cats :: rest =>
      d <- plan_day ll forecasts i cats ;;
      ds <- plan_days ll forecasts (S i) rest ;;
      Ok (d :: ds)
  end.

(** pipeline.py, lines 50-113. *)
Definition generate_itinerary
    (traveler_type destination : string) (days : Z)
    (stay_latlng : option latlng) (use_groq : bool) : outcome itinerary :=
  match (match stay_latlng with Some ll => Some ll | None => geocode_city destination end) with
  | None => Raise (ValueError "Could not geocode destination")
  | Some ll =>
      let seq := build_weighted_sequence PREFS traveler_type days in
      let per_day_categories := sequence_to_days seq days in
      let forecasts := daily_forecast (fst ll) (snd ll) days in
      plan <- plan_days ll forecasts 0 per_day_categories ;;
      let groq_notes :=
        if use_groq then
          match groq_refine destination ll traveler_type plan with
          | Ok notes => notes
          | Raise _ => None
          end
        else None in
      Ok {| it_destination := destination;
            it_latlng := ll;
            it_traveler_type := traveler_type;
            it_plan := plan;
            it_llm_notes := groq_notes |}
  end.

End Planner.

(** ** places.py: the candidates of a category *)

Module Places.

(** Lines 8-44. *)
Definition CATEGORY_QUERY : dict (list string) :=
  [ ("romantic", ["scenic viewpoint"; "sunset point"; "romantic restaurant"]);
    ("scenic", ["viewpoint"; "scenic view"]);
    ("quiet", ["botanical garden"; "nature trail"]);
    ("parks", ["park"]);
    ("lakes", ["lake"]);
    ("viewpoints", ["viewpoint"]);
    ("gardens", ["botanical garden"]);
    ("sunset_points", ["sunset point"]);
    ("cafes", ["cafe"]);
    ("heritage_sites", ["heritage site"; "historical landmark"]);
    ("beaches", ["beach"]);
    ("mountain_views", ["viewpoint"; "mountain"]);
    ("waterfalls", ["waterfall"]);
    ("museums", ["museum"]);
    ("hiking", ["hiking trail"]);
    ("trekking", ["hiking trail"]);
    ("adventure", ["adventure park"]);
    ("temples", ["hindu temple"; "temple"]);
    ("cultural", ["cultural center"]);
    ("family_restaurants", ["family restaurant"]);
    ("amusement_parks", ["amusement park"]);
    ("aquariums", ["aquarium"]);
    ("zoo", ["zoo"]);
    ("science_centers", ["science center"]);
    ("picnic_spots", ["picnic area"]);
    ("shopping_malls", ["shopping mall"]);
    ("sightseeing", ["tourist attraction"]);
    ("group_activities", ["escape room"; "team building"]);
    ("shopping", ["market"; "shopping mall"]);
    ("markets", ["market"]);
    ("cultural_centers", ["cultural center"]);
    ("theaters", ["theater"]);
    ("pilgrimage_sites", ["pilgrimage site"]);
    ("festivals", ["event venue"]);
    ("city_tours", ["city tour"]) ]%string.

(** [s.replace(old, new)] for one-character [old] and [new]. *)
Fixpoint replace (old new : ascii) (s : string) : string :=
  match s with
  | EmptyString => EmptyString
  | String c r => String (if Ascii.eqb c old then new else c) (replace old new r)
  end.

(** Line 89: [CATEGORY_QUERY.get(cat, [cat.replace("_", " ")])]. *)
Definition queries_for (cat : string) : list string :=
  match dict_get CATEGORY_QUERY cat with
  | Some queries => queries
  | None => [replace "_" " " cat]
  end.

(** A call that returns or raises.  What a search raises ([RuntimeError]
    without an API key, the errors of [requests], [KeyError] on a result
    without geocodes) is kept abstract. *)
Inductive reply (E A : Type) : Type :=
  | Found (a : A)
  | Failed (e : E).
Arguments Found {E A} a.
Arguments Failed {E A} e.

(** A place as [places_text_search] returns it (lines 75-85): the fields
    of a candidate, without ["category"]; its rating is always a number. *)
Record hit : Type := {
  hit_name : option string;
  hit_rating : Q;
  hit_address : option string;
  hit_place_id : option string;
  hit_lat : Q;
  hit_lng : Q;
  hit_types : list string
}.

(** [p | {"category": cat}]. *)
Definition with_category (p : hit) (cat : string) : candidate :=
  {| name := hit_name p;
     rating := Some (hit_rating p);
     address := hit_address p;
     place_id := hit_place_id p;
     lat := hit_lat p;
     lng := hit_lng p;
     types := hit_types p;
     category := cat |}.

(** [==] on the keys of [seen]: [p.get("fsq_id")] may be [None]. *)
Definition id_eqb (a b : option string) : bool :=
  match a, b with
  | Some x, Some y => String.eqb x y
  | None, None => true
  | _, _ => false
  end.

(** [seen]: a dict in insertion order, keyed by place id. *)
Definition seen_dict : Type := list (option string * candidate).

(** [key in seen]. *)
Definition seen_has (seen : seen_dict) (key : option string) : bool :=
  existsb (fun kv => id_eqb (fst kv) key) seen.

(** Lines 93-95: the body of the inner loop. *)
Definition note (cat : string) (seen : seen_dict) (p : hit) : seen_dict :=
  let key := hit_place_id p in
  if seen_has seen key then seen else seen ++ [(key, with_category p cat)].

(** What the loops of [candidates_for_category] keep true of [seen] once
    the hits [done] are read: the keys are the ids of the values and are
    distinct, every value carries the category, every hit read has its id
    among the keys, every value is the first hit of its id, and the values
    stand in the order in which their ids were first met. *)
Definition noted (cat : string) (done : list hit) (seen : seen_dict) : Prop :=
  map fst seen = map place_id (map snd seen)
  /\ NoDup (map fst seen)
  /\ Forall (fun r => category r = cat) (map snd seen)
  /\ (forall p, In p done -> In (hit_place_id p) (map fst seen))
  /\ (forall r, In r (map snd seen) ->
        exists l1 p l2, done = l1 ++ p :: l2 /\ r = with_category p cat
                        /\ ~ In (hit_place_id p) (map hit_place_id l1))
  /\ ForallOrdPairs
       (fun r1 r2 => exists l1 l2, done = l1 ++ l2
                     /\ In (place_id r1) (map hit_place_id l1)
                     /\ ~ In (place_id r2) (map hit_place_id l1))
       (map snd seen).

Section Candidates.

(** The search, by query, [lat], [lng] and [max_results] ([radius] and
    [min_rating] keep their defaults); [lat] and [lng] are only handed
    on to it. *)
Variable E : Type.
Variables Lat Lng : Type.
Variable places_text_search : string -> Lat -> Lng -> Z -> reply E (list hit).

(** Lines 91-95: the loop over the queries; the first search that raises
    ends it. *)
Fixpoint search_all (lat : Lat) (lng : Lng) (cat : string) (max_results : Z)
    (queries : list string) (seen : seen_dict) : reply E seen_dict :=
  match queries with
  | [] => Found seen
  | q :: rest =>
      match places_text_search q lat lng max_results with
      | Failed e => Failed e
      | Found hits =>
          search_all lat lng cat max_results rest (fold_left (note cat) hits seen)
      end
  end.

(** places.py, lines 88-96. *)
Definition candidates_for_category (lat : Lat) (lng : Lng) (cat : string)
    (max_results : Z) : reply E (list candidate) :=
  match search_all lat lng cat max_results (queries_for cat) [] with
  | Failed e => Failed e
  | Found seen => Found (map snd seen)
  end.

End Candidates.

End Places.

(** Rational stand-ins for the [math] functions, to run the definitions on
    examples: the small-angle forms of [sin], [cos] and [atan2] and the
    identity for [sqrt]. *)
Module Sample.
Definition radians (x : Q) : Q := (x * (355 # 113) / 180)%Q.
Definition sin (x : Q) : Q := x.
Definition cos (x : Q) : Q := (1 - x * x / 2)%Q.
Definition sqrt (x : Q) : Q := x.
Definition atan2 (y x : Q) : Q := (y / (1 + x))%Q.
Definition haversine : latlng -> latlng -> Q :=
  haversine radians sin cos sqrt atan2.
End Sample.

(** * Facts about the built-ins *)

Section SortingFacts.
Context {A : Type}.
Variable lt : A -> A -> bool.

Lemma insert_perm (x : A) (l : list A) : Permutation (x :: l) (insert lt x l).
Proof.
  induction l as [|y ys IH]; simpl; [reflexivity|].
  destruct (lt y x); [|reflexivity].
  rewrite perm_swap. now constructor.
Qed.

Lemma sorted_perm (l : list A) : Permutation l (sorted lt l).
Proof.
  induction l as [|x xs IH]; simpl; [constructor|].
  rewrite <- insert_perm. now constructor.
Qed.

Lemma sorted_length (l : list A) : length (sorted lt l) = length l.
Proof. symmetry. apply Permutation_length, sorted_perm. Qed.

Lemma sorted_in (l : list A) (x : A) : In x (sorted lt l) <-> In x l.
Proof.
  split; apply Permutation_in; [symmetry|]; apply sorted_perm.
Qed.

(** What the comparison must satisfy for the output to be ordered: it is
    asymmetric, and "not below" is transitive. *)
Hypothesis lt_asym : forall a b, lt a b = true -> lt b a = false.
Hypothesis lt_negtrans :
  forall a b c, lt b a = false -> lt c b = false -> lt c a = false.

Lemma insert_in (x z : A) (l : list A) : In z (insert lt x l) -> z = x \/ In z l.
Proof.
  intros H. apply (Permutation_in _ (Permutation_sym (insert_perm x l))) in H.
  destruct H; [left; congruence|now right].
Qed.

Lemma insert_sorted (x : A) (l : list A) :
  StronglySorted (before lt) l -> StronglySorted (before lt) (insert lt x l).
Proof.
  induction 1 as [|y ys Hs IH Hall]; simpl.
  - repeat constructor.
  - destruct (lt y x) eqn:E.
    + constructor; [assumption|].
      apply Forall_forall. intros z Hz. apply insert_in in Hz.
      destruct Hz as [->|Hz].
      * now apply lt_asym.
      * rewrite Forall_forall in Hall. now apply Hall.
    + constructor; [now constructor|].
      constructor; [exact E|].
      apply Forall_forall. intros z Hz. rewrite Forall_forall in Hall.
      unfold before. apply (lt_negtrans x y z); [exact E|now apply Hall].
Qed.

Lemma sorted_sorted (l : list A) : StronglySorted (before lt) (sorted lt l).
Proof.
  induction l as [|x xs IH]; simpl; [constructor|now apply insert_sorted].
Qed.

Lemma lt_irrefl (a : A) : lt a a = false.
Proof. destruct (lt a a) eqn:E; [|reflexivity]. now rewrite (lt_asym _ _ E) in E. Qed.

(** [min] returns an element that nothing is below. *)
Lemma min_from_least (l : list A) (best : A) :
  (min_from lt best l = best \/ In (min_from lt best l) l)
  /\ forall x, x = best \/ In x l -> lt x (min_from lt best l) = false.
Proof.
  revert best. induction l as [|y ys IH]; intros best; simpl.
  - split; [now left|]. intros x [->|[]]. apply lt_irrefl.
  - destruct (IH (if lt y best then y else best)) as [Hin Hleast]. split.
    + destruct Hin as [->|Hin]; [|tauto]. destruct (lt y best); tauto.
    + intros x Hx. destruct (lt y best) eqn:E.
      * destruct Hx as [->|[->|Hx]].
        -- apply (lt_negtrans _ y); [apply Hleast; now left|now apply lt_asym].
        -- apply Hleast. now left.
        -- apply Hleast. now right.
      * destruct Hx as [->|[->|Hx]].
        -- apply Hleast. now left.
        -- apply (lt_negtrans _ best); [apply Hleast; now left|exact E].
        -- apply Hleast. now right.
Qed.

Lemma min_least (l : list A) (m : A) :
  Py.min lt l = Some m -> In m l /\ forall x, In x l -> lt x m = false.
Proof.
  destruct l as [|y ys]; simpl; [discriminate|]. intros [= <-].
  destruct (min_from_least ys y) as [Hin Hleast]. split.
  - destruct Hin as [->|Hin]; tauto.
  - intros x [<-|Hx]; apply Hleast; tauto.
Qed.

(** [max] returns an element that is below nothing. *)
Lemma max_from_greatest (l : list A) (best : A) :
  (max_from lt best l = best \/ In (max_from lt best l) l)
  /\ forall x, x = best \/ In x l -> lt (max_from lt best l) x = false.
Proof.
  revert best. induction l as [|y ys IH]; intros best; simpl.
  - split; [now left|]. intros x [->|[]]. apply lt_irrefl.
  - destruct (IH (if lt best y then y else best)) as [Hin Hgreat]. split.
    + destruct Hin as [->|Hin]; [|tauto]. destruct (lt best y); tauto.
    + intros x Hx. destruct (lt best y) eqn:E.
      * destruct Hx as [->|[->|Hx]].
        -- apply (lt_negtrans _ y); [now apply lt_asym|apply Hgreat; now left].
        -- apply Hgreat. now left.
        -- apply Hgreat. now right.
      * destruct Hx as [->|[->|Hx]].
        -- apply Hgreat. now left.
        -- apply (lt_negtrans _ best); [exact E|apply Hgreat; now left].
        -- apply Hgreat. now right.
Qed.

Lemma max_greatest (l : list A) (m : A) :
  Py.max lt l = Some m -> In m l /\ forall x, In x l -> lt m x = false.
Proof.
  destruct l as [|y ys]; simpl; [discriminate|]. intros [= <-].
  destruct (max_from_greatest ys y) as [Hin Hgreat]. split.
  - destruct Hin as [->|Hin]; tauto.
  - intros x [<-|Hx]; apply Hgreat; tauto.
Qed.
End SortingFacts.

(** The order of strings. *)
Section StringOrder.
Lemma ltb_lt (a b : string) : String.ltb a b = true <-> String_as_OT.lt a b.
Proof.
  rewrite <- String_as_OT.cmp_lt. unfold String.ltb, String_as_OT.cmp.
  destruct (String.compare a b); split; congruence.
Qed.

Lemma ltb_irrefl (a : string) : String.ltb a a = false.
Proof.
  destruct (String.ltb a a) eqn:E; [|reflexivity].
  apply ltb_lt in E. apply String_as_OT.lt_not_eq in E. now elim E.
Qed.

Lemma ltb_trans (a b c : string) :
  String.ltb a b = true -> String.ltb b c = true -> String.ltb a c = true.
Proof. rewrite !ltb_lt. apply String_as_OT.lt_trans. Qed.

Lemma ltb_asym (a b : string) : String.ltb a b = true -> String.ltb b a = false.
Proof.
  intros H. destruct (String.ltb b a) eqn:E; [|reflexivity].
  pose proof (ltb_trans _ _ _ H E) as Haa. now rewrite ltb_irrefl in Haa.
Qed.

Lemma ltb_total (a b : string) :
  a <> b -> String.ltb a b = true \/ String.ltb b a = true.
Proof.
  intros Hne. unfold String.ltb. rewrite (String.compare_antisym b a).
  destruct (String.compare a b) eqn:E; simpl; auto.
  apply String.compare_eq_iff in E. contradiction.
Qed.

Lemma ltb_negtrans (a b c : string) :
  String.ltb b a = false -> String.ltb c b = false -> String.ltb c a = false.
Proof.
  intros Hba Hcb. destruct (String.ltb c a) eqn:E; [|reflexivity].
  destruct (string_dec a b) as [->|Hab]; [congruence|].
  destruct (ltb_total a b Hab) as [Hlt|Hlt]; [|congruence].
  pose proof (ltb_trans _ _ _ E Hlt). congruence.
Qed.
End StringOrder.

(** The order of floats. *)
Section FloatOrder.
Lemma Qltb_lt (a b : Q) : Qltb a b = true <-> (a < b)%Q.
Proof.
  unfold Qltb. rewrite Qlt_alt. destruct (a ?= b)%Q; split; congruence.
Qed.

Lemma Qltb_ge (a b : Q) : Qltb a b = false <-> (b <= a)%Q.
Proof.
  rewrite <- not_true_iff_false, Qltb_lt. split.
  - apply Qnot_lt_le.
  - apply Qle_not_lt.
Qed.

Lemma Qeq_bool_false (a b : Q) : Qeq_bool a b = false <-> ~ (a == b)%Q.
Proof. rewrite <- not_true_iff_false, Qeq_bool_iff. tauto. Qed.
End FloatOrder.

Lemma sorted_reverse_perm {A : Type} (lt : A -> A -> bool) (l : list A) :
  Permutation l (sorted_reverse lt l).
Proof. apply sorted_perm. Qed.

Section DictFacts.
Context {V : Type}.
Implicit Types (d : dict V) (k : string) (v : V).

Lemma dict_set_fresh d k v : ~ In k (keys d) -> dict_set d k v = d ++ [(k, v)].
Proof.
  induction d as [|[k' v'] r IH]; simpl; intros Hk; [reflexivity|].
  destruct (String.eqb_spec k' k) as [->|Hne]; [tauto|].
  rewrite IH; tauto.
Qed.

Lemma dict_of_items_acc (items acc : list (string * V)) :
  NoDup (map fst (acc ++ items)) ->
  fold_left (fun d kv => dict_set d (fst kv) (snd kv)) items acc = acc ++ items.
Proof.
  revert acc. induction items as [|[k v] r IH]; intros acc Hnd; simpl.
  - now rewrite app_nil_r.
  - rewrite dict_set_fresh.
    + rewrite IH; rewrite <- app_assoc; [reflexivity | exact Hnd].
    + rewrite map_app in Hnd. simpl in Hnd.
      apply NoDup_remove_2 in Hnd. intros Hin. apply Hnd.
      apply in_or_app. now left.
Qed.

(** Distinct keys: the comprehension keeps the items as they are. *)
Lemma dict_of_items_nodup (items : list (string * V)) :
  NoDup (map fst items) -> dict_of_items items = items.
Proof. intros H. unfold dict_of_items. now rewrite dict_of_items_acc. Qed.

Lemma dict_get_in d k : In k (keys d) -> exists v, dict_get d k = Some v.
Proof.
  induction d as [|[k' v'] r IH]; simpl; [tauto|]. intros [->|Hin].
  - rewrite String.eqb_refl. eauto.
  - destruct (String.eqb k' k); eauto.
Qed.

Lemma dict_get_map_nodup {W : Type} (f : string * W -> V) (l : list (string * W))
      (c : string) (w : W) :
  NoDup (map fst l) -> In (c, w) l ->
  dict_get (map (fun cw => (fst cw, f cw)) l) c = Some (f (c, w)).
Proof.
  induction l as [|[c' w'] r IH]; simpl; [tauto|].
  intros Hnd [Heq|Hin].
  - inversion Heq; subst. now rewrite String.eqb_refl.
  - inversion Hnd as [|? ? Hni Hnd']; subst.
    destruct (String.eqb_spec c' c) as [->|Hne].
    + exfalso. apply Hni. change c with (fst (c, w)). now apply in_map.
    + now apply IH.
Qed.

Lemma keys_dict_set_present d k v : In k (keys d) -> keys (dict_set d k v) = keys d.
Proof.
  induction d as [|[k' v'] r IH]; simpl; [tauto|]. intros Hin.
  destruct (String.eqb_spec k' k) as [->|Hne]; simpl; [reflexivity|].
  f_equal. apply IH. destruct Hin; [congruence|assumption].
Qed.
End DictFacts.

(** * The quota allocator *)

Section Quotas.

Lemma sum_app (l1 l2 : list Z) : sum (l1 ++ l2) = sum l1 + sum l2.
Proof. induction l1; simpl; lia. Qed.

(** The floor of the exact quotient is the integer quotient. *)
Lemma Qfloor_div (a t : Z) :
  0 < t -> Qfloor (inject_Z a / inject_Z t) = a / t.
Proof.
  intros Ht. destruct t as [|p|p]; try lia.
  unfold Qdiv, Qinv, Qmult, inject_Z, Qfloor. simpl.
  now rewrite Z.mul_1_r.
Qed.

Lemma incr_sum (b : dict Z) (c : string) :
  In c (keys b) -> sum (values (incr b c)) = sum (values b) + 1.
Proof.
  unfold incr, dict_at.
  induction b as [|[k v] r IH]; simpl; [tauto|]. intros Hin.
  destruct (String.eqb_spec k c) as [->|Hne]; simpl; [lia|].
  destruct Hin as [?|Hin]; [congruence|].
  specialize (IH Hin). unfold values in *. lia.
Qed.

Lemma incr_keys (b : dict Z) (c : string) :
  In c (keys b) -> keys (incr b c) = keys b.
Proof. apply keys_dict_set_present. Qed.

Lemma incr_in (b : dict Z) (c c' : string) (q : Z) :
  In c (keys b) ->
  In (c', q) (incr b c) -> In (c', q) b \/ In (c', q - 1) b.
Proof.
  unfold incr, dict_at.
  induction b as [|[k v] r IH]; simpl; [tauto|].
  destruct (String.eqb_spec k c) as [->|Hne]; simpl.
  - intros _ [Heq|Hin]; [|tauto]. inversion Heq; subst.
    right. left. f_equal. lia.
  - intros [?|Hk] [Heq|Hin]; try congruence; [tauto|].
    apply (IH Hk) in Hin. tauto.
Qed.

Lemma distribute_acc (f : nat -> string) (idxs : list nat) (b : dict Z) :
  (forall i, In i idxs -> In (f i) (keys b)) ->
  let b' := fold_left (fun b i => incr b (f i)) idxs b in
  keys b' = keys b
  /\ sum (values b') = sum (values b) + Z.of_nat (length idxs)
  /\ (forall c q, In (c, q) b' -> exists q0, In (c, q0) b /\ q0 <= q).
Proof.
  revert b. induction idxs as [|i r IH]; intros b Hin; simpl.
  - repeat split; [lia|]. intros c q H. exists q. split; [assumption|lia].
  - assert (Hi : In (f i) (keys b)) by (apply Hin; now left).
    destruct (IH (incr b (f i))) as (Hk & Hs & Hq).
    { intros j Hj. rewrite incr_keys by assumption. apply Hin. now right. }
    rewrite Hk, Hs, incr_keys, incr_sum by assumption.
    repeat split; [lia|].
    intros c q H. destruct (Hq c q H) as (q0 & H0 & Hle).
    apply incr_in in H0; [|assumption].
    destruct H0 as [H0|H0]; eexists; (split; [exact H0|lia]).
Qed.

Section Shares.
Variable weights : list (string * Z).
Variable n_total : Z.
Local Abbreviation total_w := (sum (map snd weights)) (only parsing).
Hypothesis names_distinct : NoDup (map fst weights).

Lemma raw_shares_nodup :
  raw_shares weights n_total total_w
  = map (fun cw => (fst cw, (inject_Z (n_total * snd cw) / inject_Z total_w)%Q))
        weights.
Proof.
  unfold raw_shares. apply dict_of_items_nodup.
  now rewrite map_map, (map_ext _ fst) by reflexivity.
Qed.

Lemma floors_nodup :
  0 < total_w ->
  floors (raw_shares weights n_total total_w)
  = map (fun cw => (fst cw, n_total * snd cw / total_w)) weights.
Proof.
  intros Ht. rewrite raw_shares_nodup. unfold floors. rewrite map_map.
  apply map_ext. intros [c w]. cbn [fst snd]. now rewrite Qfloor_div.
Qed.

Lemma floors_keys :
  0 < total_w -> keys (floors (raw_shares weights n_total total_w)) = map fst weights.
Proof.
  intros Ht. rewrite floors_nodup by assumption. unfold keys.
  rewrite map_map. now apply map_ext.
Qed.

(** The floors never add up to more than the target. *)
Lemma floors_sum_le :
  0 < total_w -> sum (values (floors (raw_shares weights n_total total_w))) <= n_total.
Proof.
  intros Ht. rewrite floors_nodup by assumption.
  unfold values. rewrite map_map. simpl.
  assert (H : forall (l : list (string * Z)) (t : Z), 0 < t ->
             t * sum (map (fun cw => n_total * snd cw / t) l)
             <= n_total * sum (map snd l)).
  { intros l t Hpos. induction l as [|[c w] r IH]; simpl; [lia|].
    pose proof (Z.mul_div_le (n_total * w) t Hpos). lia. }
  specialize (H weights total_w Ht). nia.
Qed.
End Shares.

Lemma fractions_names (weights : list (string * Z)) (raw : dict Q) (base : dict Z)
      (fc : Q * string) :
  In fc (fractions weights raw base) -> In (snd fc) (map fst weights).
Proof.
  unfold fractions, sorted_reverse. rewrite sorted_in, in_map_iff.
  intros (cw & <- & Hin). simpl. now apply in_map.
Qed.

Lemma fractions_length (weights : list (string * Z)) (raw : dict Q) (base : dict Z) :
  length (fractions weights raw base) = length weights.
Proof.
  unfold fractions, sorted_reverse. now rewrite sorted_length, length_map.
Qed.

Lemma sum_nonneg (l : list Z) : (forall w, In w l -> 0 <= w) -> 0 <= sum l.
Proof.
  induction l as [|w r IH]; simpl; intros H; [lia|].
  assert (0 <= w) by (apply H; now left).
  assert (0 <= sum r) by (apply IH; intros; apply H; now right). lia.
Qed.

(** **** The order of the fraction tuples *)

Lemma frac_lt_false (a b : Q * string) :
  frac_lt a b = false
  <-> (fst b < fst a)%Q \/ ((fst a == fst b)%Q /\ String.ltb (snd a) (snd b) = false).
Proof.
  unfold frac_lt. destruct (Qeq_bool (fst a) (fst b)) eqn:E.
  - apply Qeq_bool_iff in E. split; [tauto|]. intros [H|[_ H]]; [lra|assumption].
  - apply Qeq_bool_false in E. rewrite Qltb_ge. split.
    + intros H. left. apply Qle_lteq in H. destruct H as [H|H]; [assumption|].
      elim E. now symmetry.
    + intros [H|[H _]]; [lra|contradiction].
Qed.

Lemma frac_lt_true (a b : Q * string) :
  frac_lt a b = true
  <-> (fst a < fst b)%Q \/ ((fst a == fst b)%Q /\ String.ltb (snd a) (snd b) = true).
Proof.
  unfold frac_lt. destruct (Qeq_bool (fst a) (fst b)) eqn:E.
  - apply Qeq_bool_iff in E. split; [tauto|]. intros [H|[_ H]]; [lra|assumption].
  - apply Qeq_bool_false in E. rewrite Qltb_lt. tauto.
Qed.

Lemma frac_lt_asym (a b : Q * string) : frac_lt a b = true -> frac_lt b a = false.
Proof.
  rewrite frac_lt_true, frac_lt_false. intros [H|[H1 H2]]; [now left|].
  right. split; [now symmetry|now apply ltb_asym].
Qed.

Lemma frac_lt_negtrans (a b c : Q * string) :
  frac_lt a b = false -> frac_lt b c = false -> frac_lt a c = false.
Proof.
  rewrite !frac_lt_false.
  intros [H1|[H1 H1']] [H2|[H2 H2']]; try (left; lra).
  right. split; [lra|]. now apply (ltb_negtrans _ (snd b)).
Qed.

Lemma frac_lt_total (a b : Q * string) :
  snd a <> snd b -> frac_lt a b = false -> frac_lt b a = true.
Proof.
  intros Hne. rewrite frac_lt_false, frac_lt_true.
  intros [H|[H1 H2]]; [now left|]. right. split; [now symmetry|].
  destruct (ltb_total _ _ Hne); congruence.
Qed.

(** The list [frac] is in descending order. *)
Lemma fractions_sorted (weights : list (string * Z)) (raw : dict Q) (base : dict Z) :
  StronglySorted (fun a b => frac_lt a b = false) (fractions weights raw base).
Proof.
  unfold fractions, sorted_reverse.
  apply (sorted_sorted (fun a b => frac_lt b a)).
  - intros a b. apply frac_lt_asym.
  - intros a b c H1 H2. now apply (frac_lt_negtrans a b c).
Qed.

(** **** Who receives a unit *)

Lemma nth_seq_firstn {A : Type} (d : A) (l : list A) (r : nat) :
  (r <= length l)%nat -> map (fun i => nth i l d) (seq 0 r) = firstn r l.
Proof.
  revert r. induction l as [|x xs IH]; intros [|r] Hr; simpl in *; try lia;
    try reflexivity.
  f_equal. rewrite <- seq_shift, map_map. apply IH. lia.
Qed.

Lemma fold_left_incr_map {I : Type} (f : I -> string) (idxs : list I) (b : dict Z) :
  fold_left (fun b i => incr b (f i)) idxs b = fold_left incr (map f idxs) b.
Proof. revert b. induction idxs; simpl; auto. Qed.

Lemma distribute_firstn (frac : list (Q * string)) (rem : Z) (base : dict Z) :
  (Z.to_nat rem <= length frac)%nat ->
  distribute frac rem base
  = fold_left incr (map snd (firstn (Z.to_nat rem) frac)) base.
Proof.
  intros Hr. unfold distribute.
  rewrite (fold_left_incr_map
             (fun i => snd (nth (Nat.modulo i (length frac)) frac (0%Q, EmptyString)))).
  f_equal. rewrite <- (nth_seq_firstn (0%Q, EmptyString)) by assumption.
  rewrite map_map. apply map_ext_in. intros i Hi. apply in_seq in Hi.
  rewrite Nat.mod_small by lia. reflexivity.
Qed.

Lemma dict_at_get (b : dict Z) (c : string) :
  In c (keys b) -> dict_get b c = Some (dict_at 0 b c).
Proof.
  intros H. unfold dict_at. destruct (dict_get_in b c H) as (v & ->). reflexivity.
Qed.

Lemma incr_at (b : dict Z) (c' c : string) :
  In c' (keys b) ->
  dict_at 0 (incr b c') c = dict_at 0 b c + (if string_dec c' c then 1 else 0).
Proof.
  unfold incr, dict_at.
  induction b as [|[k v] r IH]; simpl; [tauto|]. intros Hin.
  destruct (String.eqb_spec k c') as [->|Hne]; simpl.
  - destruct (String.eqb_spec c' c) as [->|Hne'];
      destruct (string_dec _ _); try congruence; lia.
  - destruct (String.eqb_spec k c) as [->|Hne'].
    + destruct (string_dec c' c); [congruence|lia].
    + apply IH. destruct Hin; [congruence|assumption].
Qed.

Lemma fold_incr_at (cs : list string) (b : dict Z) (c : string) :
  (forall c', In c' cs -> In c' (keys b)) ->
  keys (fold_left incr cs b) = keys b
  /\ dict_at 0 (fold_left incr cs b) c
     = dict_at 0 b c + Z.of_nat (count_occ string_dec cs c).
Proof.
  revert b. induction cs as [|c' r IH]; intros b Hin; simpl; [split; [reflexivity|lia]|].
  assert (Hc' : In c' (keys b)) by (apply Hin; now left).
  destruct (IH (incr b c')) as (Hk & Hv).
  { intros x Hx. rewrite incr_keys by assumption. apply Hin. now right. }
  rewrite Hk, Hv, incr_keys, incr_at by assumption.
  split; [reflexivity|]. destruct (string_dec c' c); lia.
Qed.

(** The remainder is at most the number of categories. *)
Lemma remainder_le_length (weights : list (string * Z)) (n_total : Z) :
  let total_w := sum (map snd weights) in
  0 < total_w ->
  n_total - sum (map (fun cw => n_total * snd cw / total_w) weights)
  <= Z.of_nat (length weights).
Proof.
  intros total_w Ht.
  assert (H : forall (l : list (string * Z)) (t : Z), 0 < t ->
             n_total * sum (map snd l)
             <= t * sum (map (fun cw => n_total * snd cw / t) l)
                + t * Z.of_nat (length l)).
  { intros l t Hpos. induction l as [|[c w] r IH]; [simpl; lia|].
    cbn [map sum fold_right length snd].
    pose proof (Z.mod_pos_bound (n_total * w) t Hpos).
    pose proof (Z.div_mod (n_total * w) t ltac:(lia)).
    change (fold_right Z.add 0) with sum. lia. }
  specialize (H weights total_w Ht). fold total_w in H. nia.
Qed.

Lemma sorted_split {A : Type} (R : A -> A -> Prop) (l1 l2 : list A) (x y : A) :
  StronglySorted R (l1 ++ l2) -> In x l1 -> In y l2 -> R x y.
Proof.
  induction l1 as [|a r IH]; simpl; [tauto|]. intros Hs [->|Hx] Hy.
  - apply StronglySorted_inv in Hs. destruct Hs as [_ Hall].
    rewrite Forall_forall in Hall. apply Hall, in_or_app. now right.
  - apply StronglySorted_inv in Hs. now apply IH.
Qed.

(** One quota for each category, whatever the sign of the weights; with
    a positive total weight and a positive target, the quotas add up to
    the target. *)
Lemma quotas_shape (weights : list (string * Z)) (n_total : Z) :
  NoDup (map fst weights) ->
  keys (proportional_quotas weights n_total) = map fst weights
  /\ (0 < sum (map snd weights) -> 0 < n_total ->
      sum (values (proportional_quotas weights n_total)) = n_total).
Proof.
  intros Hnd. unfold proportional_quotas.
  destruct ((sum (map snd weights) =? 0) || (n_total <=? 0)) eqn:Hz; cbv zeta.
  - rewrite dict_of_items_nodup
      by now rewrite map_map, (map_ext _ fst) by reflexivity.
    split.
    + unfold keys. rewrite map_map. now apply map_ext.
    + intros Ht Hn. apply orb_true_iff in Hz. destruct Hz; lia.
  - apply orb_false_iff in Hz. destruct Hz as [Ht _].
    set (raw := raw_shares _ _ _). set (base := floors raw).
    assert (Hkeys : keys base = map fst weights).
    { unfold base, floors, keys. rewrite map_map. cbn [fst].
      unfold raw. rewrite raw_shares_nodup by assumption.
      rewrite map_map. now apply map_ext. }
    destruct (0 <? n_total - sum (values base)) eqn:Hrem.
    + set (frac := fractions weights raw base). unfold distribute.
      destruct (distribute_acc
                  (fun i => snd (nth (Nat.modulo i (length frac)) frac (0%Q, EmptyString)))
                  (seq 0 (Z.to_nat (n_total - sum (values base)))) base)
        as (Hk & Hs & _).
      { intros i _. rewrite Hkeys. apply (fractions_names weights raw base).
        apply nth_In. apply Nat.mod_upper_bound.
        unfold frac. rewrite fractions_length.
        destruct weights; simpl in *; [lia|discriminate]. }
      split; [now rewrite Hk|].
      intros _ _. rewrite Hs, length_seq. lia.
    + split; [assumption|]. intros Ht' Hn.
      pose proof (floors_sum_le weights n_total Hnd Ht') as Hle.
      fold raw in Hle. fold base in Hle. lia.
Qed.



Lemma nodup_fst_unique {W : Type} (l : list (string * W)) (c : string) (w w' : W) :
  NoDup (map fst l) -> In (c, w) l -> In (c, w') l -> w = w'.
Proof.
  intros Hnd H1 H2.
  pose proof (dict_get_map_nodup snd l c w Hnd H1) as E1.
  pose proof (dict_get_map_nodup snd l c w' Hnd H2) as E2.
  rewrite E1 in E2. now inversion E2.
Qed.

Lemma fractions_nodup (weights : list (string * Z)) (raw : dict Q) (base : dict Z) :
  NoDup (map fst weights) -> NoDup (map snd (fractions weights raw base)).
Proof.
  intros Hnd. unfold fractions.
  eapply Permutation_NoDup.
  - apply Permutation_map. apply sorted_reverse_perm.
  - rewrite map_map. simpl. exact Hnd.
Qed.

Lemma nodup_firstn {A : Type} (l : list A) (r : nat) : NoDup l -> NoDup (firstn r l).
Proof.
  intros H. rewrite <- (firstn_skipn r l) in H. now apply NoDup_app_remove_r in H.
Qed.

Lemma in_firstn {A : Type} (l : list A) (r : nat) (x : A) :
  In x (firstn r l) -> In x l.
Proof.
  intros H. rewrite <- (firstn_skipn r l). apply in_or_app. now left.
Qed.

Lemma nodup_app_disjoint {A : Type} (l1 l2 : list A) (a : A) :
  NoDup (l1 ++ l2) -> In a l1 -> In a l2 -> False.
Proof.
  induction l1 as [|x r IH]; simpl; [tauto|].
  intros Hnd [->|H1] H2; inversion Hnd; subst.
  - match goal with H : ~ In _ _ |- _ => apply H end.
    apply in_or_app. now right.
  - now apply IH.
Qed.




End Quotas.


(** * The sequence builder *)

Section Sequence.

Lemma keys_app {V : Type} (d1 d2 : dict V) : keys (d1 ++ d2) = keys d1 ++ keys d2.
Proof. apply map_app. Qed.

Lemma values_app {V : Type} (d1 d2 : dict V) : values (d1 ++ d2) = values d1 ++ values d2.
Proof. apply map_app. Qed.

Lemma dict_set_middle {V : Type} (d1 d2 : dict V) (k : string) (v v' : V) :
  ~ In k (keys d1) ->
  dict_set (d1 ++ (k, v) :: d2) k v' = d1 ++ (k, v') :: d2.
Proof.
  induction d1 as [|[k1 v1] r IH]; simpl; intros Hni.
  - now rewrite String.eqb_refl.
  - destruct (String.eqb_spec k1 k) as [->|Hne]; [tauto|]. rewrite IH; tauto.
Qed.

Lemma dict_get_middle {V : Type} (d1 d2 : dict V) (k : string) (v : V) :
  ~ In k (keys d1) -> dict_get (d1 ++ (k, v) :: d2) k = Some v.
Proof.
  induction d1 as [|[k1 v1] r IH]; simpl; intros Hni.
  - now rewrite String.eqb_refl.
  - destruct (String.eqb_spec k1 k) as [->|Hne]; [tauto|]. apply IH; tauto.
Qed.

Lemma dict_del_middle {V : Type} (d1 d2 : dict V) (k : string) (v : V) :
  ~ In k (keys d1) -> dict_del (d1 ++ (k, v) :: d2) k = d1 ++ d2.
Proof.
  induction d1 as [|[k1 v1] r IH]; simpl; intros Hni.
  - now rewrite String.eqb_refl.
  - destruct (String.eqb_spec k1 k) as [->|Hne]; [tauto|]. rewrite IH; tauto.
Qed.

(** Placing a category that has quota left: one unit less in all, the
    category appended and remembered. *)
Lemma place_spec (st : state) (cat : string) (q : Z) :
  remaining (quotas st) -> In (cat, q) (quotas st) ->
  let st' := place_category st cat q in
  remaining (quotas st')
  /\ sum (values (quotas st')) = sum (values (quotas st)) - 1
  /\ result st' = result st ++ [cat]
  /\ last st' = Some cat.
Proof.
  intros [Hnd Hpos] Hin. unfold place_category. cbn [quotas result last].
  destruct (in_split _ _ Hin) as (d1 & d2 & Hd). rewrite Hd in *.
  rewrite keys_app in Hnd. simpl in Hnd.
  assert (Hni : ~ In cat (keys d1)).
  { intros H. apply NoDup_remove_2 in Hnd. apply Hnd, in_or_app. now left. }
  rewrite (dict_set_middle d1 d2 cat q (q - 1) Hni).
  unfold dict_at. rewrite (dict_get_middle d1 d2 cat (q - 1) Hni).
  assert (Hq : 0 < q) by (apply (Hpos cat); apply in_or_app; right; now left).
  repeat split; try reflexivity.
  - destruct (q - 1 <=? 0).
    + rewrite dict_del_middle by assumption. rewrite keys_app.
      now apply NoDup_remove_1 in Hnd.
    + rewrite keys_app. exact Hnd.
  - intros c q'. destruct (q - 1 <=? 0) eqn:E.
    + rewrite dict_del_middle by assumption. intros H. apply (Hpos c).
      apply in_app_or in H. apply in_or_app. simpl. tauto.
    + intros H. apply in_app_or in H. destruct H as [H|[H|H]].
      * apply (Hpos c). apply in_or_app. now left.
      * inversion H; subst. lia.
      * apply (Hpos c). apply in_or_app. right. now right.
  - destruct (q - 1 <=? 0) eqn:E.
    + rewrite dict_del_middle by assumption.
      rewrite !values_app, !sum_app. simpl. lia.
    + rewrite !values_app, !sum_app. simpl. lia.
Qed.

Lemma max_from_in {A : Type} (lt : A -> A -> bool) (l : list A) (best : A) :
  max_from lt best l = best \/ In (max_from lt best l) l.
Proof.
  revert best. induction l as [|x xs IH]; intros best; simpl; [now left|].
  destruct (IH (if lt best x then x else best)) as [H|H]; [|tauto].
  rewrite H. destruct (lt best x); tauto.
Qed.

Lemma max_in {A : Type} (lt : A -> A -> bool) (l : list A) (x : A) :
  Py.max lt l = Some x -> In x l.
Proof.
  destruct l as [|y ys]; simpl; [discriminate|]. intros [= <-].
  destruct (max_from_in lt ys y) as [->|H]; tauto.
Qed.

Lemma differs_false (c : string) (l : option string) :
  differs c l = false -> l = Some c.
Proof.
  destruct l as [l|]; simpl; [|discriminate].
  intros H. apply negb_false_iff, String.eqb_eq in H. now subst.
Qed.

(** One iteration places a category that has quota left; it repeats the
    previous one only when no other category is left. *)
Lemma body_spec (weight_map : dict Z) (st : state) :
  remaining (quotas st) -> quotas st <> [] ->
  exists cat q,
    In (cat, q) (quotas st)
    /\ body weight_map st = place_category st cat q
    /\ (last st = Some cat -> forall c q', In (c, q') (quotas st) -> c = cat).
Proof.
  intros [Hnd Hpos] Hne. unfold body.
  set (cand := sorted _ (quotas st)).
  destruct (find _ cand) as [[cat q]|] eqn:Hfind.
  - apply find_some in Hfind. destruct Hfind as [Hin Hp].
    apply sorted_in in Hin. exists cat, q. repeat split; [assumption|].
    intros Hlast. simpl in Hp. rewrite Hlast in Hp. simpl in Hp.
    now rewrite String.eqb_refl in Hp.
  - assert (Hall : forall c q', In (c, q') (quotas st) -> last st = Some c).
    { intros c q' Hin. apply differs_false.
      pose proof (find_none _ _ Hfind (c, q')) as Hp. simpl in Hp.
      specialize (Hp (proj2 (sorted_in _ _ _) Hin)).
      apply andb_false_iff in Hp. destruct Hp as [Hp|Hp]; [assumption|].
      specialize (Hpos _ _ Hin). lia. }
    destruct (Py.max _ (quotas st)) as [[cat q]|] eqn:Hmax.
    + apply max_in in Hmax. exists cat, q. repeat split; [assumption|].
      intros Hlast c q' Hin. specialize (Hall _ _ Hin). congruence.
    + destruct (quotas st); [contradiction|discriminate].
Qed.

(** **** The weights of a traveler type *)

Lemma group_insert_keys (c : string) (w : Z) (g : list (string * Z)) (x : string * Z) :
  In x (group_insert c w g) -> fst x = c \/ In (fst x) (keys g).
Proof.
  induction g as [|[c' w'] r IH]; simpl.
  - intros [<-|[]]. now left.
  - destruct (String.eqb_spec c' c) as [->|Hne].
    + intros [<-|H]; [now left|]. right. right. now apply in_map.
    + destruct (String.ltb c c').
      * intros [<-|[<-|H]]; [now left|right; now left|].
        right. right. now apply in_map.
      * intros [<-|H]; [right; now left|].
        destruct (IH H); [now left|right; now right].
Qed.

Lemma group_insert_ascending (c : string) (w : Z) (g : list (string * Z)) :
  ascending g -> ascending (group_insert c w g).
Proof.
  unfold ascending. induction 1 as [|[c' w'] r Hs IH Hall]; simpl.
  - repeat constructor.
  - rewrite Forall_forall in Hall.
    destruct (String.eqb_spec c' c) as [->|Hne].
    + constructor; [assumption|]. apply Forall_forall. exact Hall.
    + destruct (String.ltb c c') eqn:E.
      * constructor; [now constructor; [|apply Forall_forall]|].
        constructor; [exact E|]. apply Forall_forall. intros x Hx.
        simpl. apply (ltb_trans _ c'); [exact E|]. now apply Hall.
      * constructor; [assumption|]. apply Forall_forall. intros x Hx.
        apply group_insert_keys in Hx. destruct Hx as [->|Hx].
        -- simpl. destruct (ltb_total c' c Hne); congruence.
        -- unfold keys in Hx. apply in_map_iff in Hx.
           destruct Hx as (y & <- & Hy). now apply Hall.
Qed.

Lemma groupby_max_ascending (rows : list pref_row) : ascending (groupby_max rows).
Proof.
  unfold groupby_max.
  assert (H : forall acc, ascending acc ->
             ascending (fold_left
                          (fun g r => group_insert (row_cat_norm r) (row_weight r) g)
                          rows acc)).
  { induction rows as [|r rs IH]; intros acc Hacc; simpl; [assumption|].
    apply IH. now apply group_insert_ascending. }
  apply H. constructor.
Qed.

Lemma ascending_nodup (g : list (string * Z)) : ascending g -> NoDup (map fst g).
Proof.
  induction 1 as [|x r Hs IH Hall]; simpl; constructor; [|assumption].
  rewrite Forall_forall in Hall. intros Hin. apply in_map_iff in Hin.
  destruct Hin as (y & Hy & Hin). specialize (Hall y Hin).
  rewrite Hy, ltb_irrefl in Hall. discriminate.
Qed.

(** The categories of [weights] are pairwise distinct. *)
Lemma cat_weights_nodup (tprefs : list pref_row) : NoDup (map fst (cat_weights tprefs)).
Proof.
  unfold cat_weights. eapply Permutation_NoDup.
  - apply Permutation_map, sorted_perm.
  - apply ascending_nodup, groupby_max_ascending.
Qed.

Lemma filter_keys_nodup (f : string * Z -> bool) (d : dict Z) :
  NoDup (keys d) -> NoDup (keys (filter f d)).
Proof.
  unfold keys. induction d as [|x r IH]; simpl; intros H; [constructor|].
  inversion H as [|? ? Hni Hnd]; subst. destruct (f x); simpl; [|now apply IH].
  constructor; [|now apply IH]. intros Hin. apply Hni.
  apply in_map_iff in Hin. destruct Hin as (y & Hy & Hin).
  apply filter_In in Hin. rewrite <- Hy. apply in_map. tauto.
Qed.

Lemma filter_positive_sum (d : dict Z) :
  sum (values d) <= sum (values (filter (fun cq => 0 <? snd cq) d)).
Proof.
  induction d as [|[c q] r IH]; simpl; [lia|].
  destruct (0 <? q) eqn:E; simpl; unfold values in *; lia.
Qed.

Lemma initial_remaining (weights : list (string * Z)) (n_keep : Z) :
  NoDup (map fst weights) -> remaining (initial_quotas weights n_keep).
Proof.
  intros Hnd. unfold initial_quotas. split.
  - apply filter_keys_nodup.
    now rewrite (proj1 (quotas_shape weights n_keep Hnd)).
  - intros c q Hin. apply filter_In in Hin. simpl in Hin. lia.
Qed.

(** **** The iterations of the loop *)

Section Loop.
Variable n_keep : Z.
Variable weight_map : dict Z.
Variable st0 : state.
Hypothesis st0_remaining : remaining (quotas st0).
Hypothesis st0_result : result st0 = [].

(** The loop variables after [k] iterations. *)
Local Abbreviation st k := (while k n_keep weight_map st0) (only parsing).

Lemma while_stop (k : nat) (s : state) :
  guard n_keep s = false -> while k n_keep weight_map s = s.
Proof. intros H. destruct k; simpl; [reflexivity|now rewrite H]. Qed.

Lemma while_S (k : nat) (s : state) :
  while (S k) n_keep weight_map s
  = if guard n_keep (while k n_keep weight_map s)
    then body weight_map (while k n_keep weight_map s)
    else while k n_keep weight_map s.
Proof.
  revert s. induction k as [|k IH]; intros s; [reflexivity|].
  change (while (S (S k)) n_keep weight_map s)
    with (if guard n_keep s
          then while (S k) n_keep weight_map (body weight_map s) else s).
  destruct (guard n_keep s) eqn:G.
  - rewrite IH. simpl. now rewrite G.
  - simpl. now rewrite G, G.
Qed.

Lemma while_add (j k : nat) (s : state) :
  while (j + k) n_keep weight_map s
  = while j n_keep weight_map (while k n_keep weight_map s).
Proof.
  induction j as [|j IH]; [reflexivity|].
  change (S j + k)%nat with (S (j + k)). now rewrite !while_S, IH.
Qed.

Lemma st_remaining (k : nat) : remaining (quotas (st k)).
Proof.
  induction k as [|k IH]; [exact st0_remaining|].
  rewrite while_S.
  destruct (guard n_keep _) eqn:G; [|assumption].
  apply andb_true_iff in G. destruct G as [_ G].
  destruct (body_spec weight_map _ IH) as (cat & q & Hin & -> & _).
  { intros E. now rewrite E in G. }
  now apply place_spec.
Qed.

(** What an iteration does when the guard holds. *)
Lemma st_step (k : nat) :
  guard n_keep (st k) = true ->
  exists cat q,
    In (cat, q) (quotas (st k))
    /\ result (st (S k)) = result (st k) ++ [cat]
    /\ last (st (S k)) = Some cat
    /\ sum (values (quotas (st (S k)))) = sum (values (quotas (st k))) - 1
    /\ (last (st k) = Some cat ->
        forall c q', In (c, q') (quotas (st k)) -> c = cat).
Proof.
  intros G. pose proof (st_remaining k) as Hrem.
  rewrite while_S, G.
  apply andb_true_iff in G. destruct G as [_ G].
  destruct (body_spec weight_map _ Hrem) as (cat & q & Hin & -> & Hrep).
  { intros E. now rewrite E in G. }
  destruct (place_spec _ cat q Hrem Hin) as (_ & Hs & Hr & Hl).
  exists cat, q. tauto.
Qed.

Lemma st_stop (k : nat) : guard n_keep (st k) = false -> st (S k) = st k.
Proof. intros G. now rewrite while_S, G. Qed.

Lemma st_stop_forever (k j : nat) :
  guard n_keep (st k) = false -> st (j + k) = st k.
Proof. intros G. rewrite while_add. now apply while_stop. Qed.

Lemma st_length_le (k : nat) : (length (result (st k)) <= k)%nat.
Proof.
  induction k as [|k IH]; [simpl; now rewrite st0_result|].
  destruct (guard n_keep (st k)) eqn:G.
  - destruct (st_step k G) as (cat & q & _ & -> & _).
    rewrite length_app. simpl. lia.
  - rewrite (st_stop k G). lia.
Qed.

Lemma st_bounded (k : nat) :
  0 <= n_keep -> Z.of_nat (length (result (st k))) <= n_keep.
Proof.
  intros Hn. induction k as [|k IH]; [simpl; rewrite st0_result; simpl; lia|].
  destruct (guard n_keep (st k)) eqn:G.
  - destruct (st_step k G) as (cat & q & _ & -> & _).
    apply andb_true_iff in G. destruct G as [G _].
    rewrite length_app. simpl. lia.
  - now rewrite (st_stop k G).
Qed.

Lemma st_prefix (k j : nat) :
  exists ext, result (st (j + k)) = result (st k) ++ ext.
Proof.
  induction j as [|j [ext IH]]; [exists []; now rewrite app_nil_r|].
  change (S j + k)%nat with (S (j + k)).
  destruct (guard n_keep (st (j + k))) eqn:G.
  - destruct (st_step _ G) as (cat & q & _ & -> & _).
    exists (ext ++ [cat]). now rewrite IH, app_assoc.
  - rewrite (st_stop _ G). now exists ext.
Qed.

(** As long as the final sequence has more entries, the loop runs. *)
Lemma st_running (n k : nat) :
  (k < length (result (st n)))%nat ->
  length (result (st k)) = k /\ guard n_keep (st k) = true.
Proof.
  intros Hk. pose proof (st_length_le n) as Hn.
  induction k as [|k IH].
  - split; [simpl; now rewrite st0_result|].
    destruct (guard n_keep (st 0)) eqn:G; [reflexivity|].
    pose proof (st_stop_forever 0 n G) as E. rewrite Nat.add_0_r in E.
    rewrite E in Hk. simpl in Hk. rewrite st0_result in Hk.
    simpl in Hk. lia.
  - destruct IH as [Hlen G]; [lia|].
    destruct (st_step k G) as (cat & q & _ & Hr & _).
    assert (HL : length (result (st (S k))) = S k).
    { rewrite Hr, length_app. simpl. lia. }
    split; [assumption|].
    destruct (guard n_keep (st (S k))) eqn:G'; [reflexivity|].
    pose proof (st_stop_forever (S k) (n - S k) G') as E.
    replace (n - S k + S k)%nat with n in E by lia.
    rewrite E in Hk. lia.
Qed.

(** The entry at position [k] of the final sequence is the category
    placed by iteration [k]; when it repeats entry [k - 1], nothing
    else was left. *)
Lemma st_entry (n k : nat) (a : string) :
  nth_error (result (st n)) k = Some a ->
  result (st (S k)) = result (st k) ++ [a]
  /\ last (st (S k)) = Some a
  /\ length (result (st k)) = k
  /\ (last (st k) = Some a ->
      forall c q, In (c, q) (quotas (st k)) -> c = a).
Proof.
  intros Hnth.
  assert (Hk : (k < length (result (st n)))%nat).
  { apply nth_error_Some. congruence. }
  destruct (st_running n k Hk) as [Hlen G].
  destruct (st_step k G) as (cat & q & _ & Hr & Hl & _ & Hrep).
  assert (Hcat : cat = a).
  { pose proof (st_length_le n).
    destruct (st_prefix (S k) (n - S k)) as [ext E].
    replace (n - S k + S k)%nat with n in E by lia.
    rewrite E, Hr in Hnth. rewrite <- app_assoc in Hnth. simpl in Hnth.
    rewrite nth_error_app2 in Hnth by lia.
    rewrite Hlen, Nat.sub_diag in Hnth. simpl in Hnth. congruence. }
  subst cat. tauto.
Qed.

Lemma st_sum (k : nat) :
  Z.of_nat (length (result (st k))) + sum (values (quotas (st k)))
  = sum (values (quotas st0)).
Proof.
  induction k as [|k IH]; [simpl; rewrite st0_result; simpl; lia|].
  destruct (guard n_keep (st k)) eqn:G.
  - destruct (st_step k G) as (cat & q & _ & -> & _ & -> & _).
    rewrite length_app. simpl. lia.
  - now rewrite (st_stop k G).
Qed.

(** With enough quota the loop fills all the slots. *)
Lemma st_full (k : nat) :
  n_keep <= sum (values (quotas st0)) ->
  Z.of_nat k <= n_keep ->
  length (result (st k)) = k.
Proof.
  intros Hq. induction k as [|k IH]; intros Hk.
  - simpl. now rewrite st0_result.
  - specialize (IH ltac:(lia)).
    assert (G : guard n_keep (st k) = true).
    { unfold guard. apply andb_true_iff. split; [rewrite IH; lia|].
      pose proof (st_sum k) as Hs. rewrite IH in Hs.
      destruct (quotas (st k)); [simpl in Hs; lia|reflexivity]. }
    destruct (st_step k G) as (cat & q & _ & -> & _).
    rewrite length_app. simpl. lia.
Qed.
Lemma st_guard_length (k : nat) :
  guard n_keep (st k) = true -> length (result (st k)) = k.
Proof.
  induction k as [|k IH]; intros G; [simpl; now rewrite st0_result|].
  destruct (guard n_keep (st k)) eqn:Gk.
  - destruct (st_step k Gk) as (cat & q & _ & -> & _).
    rewrite length_app, IH by reflexivity. simpl. lia.
  - rewrite (st_stop k Gk) in G. congruence.
Qed.

(** The loop has ended after [n_keep] iterations: the bound on the
    iterations cuts nothing off. *)
Lemma while_exits :
  0 <= n_keep -> guard n_keep (st (Z.to_nat n_keep)) = false.
Proof.
  intros Hn. destruct (guard n_keep (st (Z.to_nat n_keep))) eqn:G; [|reflexivity].
  pose proof (st_guard_length _ G) as Hlen.
  unfold guard in G. apply andb_true_iff in G. destruct G as [G _].
  rewrite Hlen in G. apply Z.ltb_lt in G. lia.
Qed.
End Loop.

Lemma cat_weights_nil : cat_weights [] = [].
Proof. reflexivity. Qed.

(** C3.  For a traveler type whose categories have a positive total
    weight (so the type is present in the table) and [days >= 1], the
    sequence has as many entries as the quotas add up to, [days*3 - 1]. *)
Theorem build_weighted_sequence_length
  (PREFS : list pref_row) (traveler_type : string) (days : Z) :
  1 <= days ->
  0 < sum (map snd (cat_weights (select_traveler PREFS traveler_type))) ->
  let seq := build_weighted_sequence PREFS traveler_type days in
  let quotas :=
    proportional_quotas (cat_weights (select_traveler PREFS traveler_type))
                        (days * 3 - 1) in
  select_traveler PREFS traveler_type <> []
  /\ Z.of_nat (length seq) = sum (values quotas)
  /\ Z.of_nat (length seq) = days * 3 - 1.
Proof.
  intros Hdays Ht. cbv zeta. unfold build_weighted_sequence.
  destruct (select_traveler PREFS traveler_type) as [|r rs] eqn:Hsel.
  { rewrite cat_weights_nil in Ht. simpl in Ht. lia. }
  set (weights := cat_weights (r :: rs)) in *.
  pose proof (cat_weights_nodup (r :: rs)) as Hnd. fold weights in Hnd.
  replace (Z.max (days * 3 - 1) 0) with (days * 3 - 1) by lia.
  set (n_keep := days * 3 - 1) in *.
  assert (Hn : 0 < n_keep) by (unfold n_keep; lia).
  destruct (quotas_shape weights n_keep Hnd) as [_ Hsum].
  specialize (Hsum Ht Hn).
  replace (n_keep =? 0) with false by (symmetry; apply Z.eqb_neq; lia).
  assert (Hfull : length (result (while (Z.to_nat n_keep) n_keep
                                        (dict_of_items weights)
                                        (initial_state weights n_keep)))
                  = Z.to_nat n_keep).
  { apply st_full.
    - now apply initial_remaining.
    - reflexivity.
    - unfold initial_state, initial_quotas. cbn [quotas].
      pose proof (filter_positive_sum (proportional_quotas weights n_keep)). lia.
    - lia. }
  unfold slice_to. replace (0 <=? n_keep) with true by (symmetry; apply Z.leb_le; lia).
  rewrite firstn_all2 by lia. rewrite Hfull, Hsum.
  split; [discriminate|]. split; lia.
Qed.

(** The claim at work: two rows for "solo", one day, two slots. *)
Lemma build_weighted_sequence_length_witness :
  let PREFS := [ {| row_traveler_type := "solo"; row_cat_norm := "zoo"; row_weight := 3 |};
                 {| row_traveler_type := "solo"; row_cat_norm := "cafes"; row_weight := 2 |} ]%string in
  Z.of_nat (length (build_weighted_sequence PREFS "solo" 1)) = 1 * 3 - 1.
Proof.
  refine (proj2 (proj2 (build_weighted_sequence_length _ "solo"%string 1 _ _))).
  - lia.
  - reflexivity.
Defined.

(** The returned sequence is the [result] of the loop after [n_keep]
    iterations. *)
Lemma build_weighted_sequence_loop
  (PREFS : list pref_row) (traveler_type : string) (days : Z) :
  build_weighted_sequence PREFS traveler_type days = []
  \/ build_weighted_sequence PREFS traveler_type days
     = result (loop_state PREFS traveler_type days
                          (Z.to_nat (Z.max (days * 3 - 1) 0))).
Proof.
  unfold build_weighted_sequence, loop_state.
  destruct (select_traveler PREFS traveler_type) as [|r rs]; [now left|].
  destruct (Z.max (days * 3 - 1) 0 =? 0); [now left|]. right.
  set (n_keep := Z.max (days * 3 - 1) 0).
  set (weights := cat_weights (r :: rs)).
  pose proof (st_bounded n_keep (dict_of_items weights) (initial_state weights n_keep)
                (initial_remaining weights n_keep (cat_weights_nodup (r :: rs)))
                eq_refl (Z.to_nat n_keep) ltac:(lia)) as Hb.
  unfold slice_to. replace (0 <=? n_keep) with true by (symmetry; apply Z.leb_le; lia).
  apply firstn_all2. lia.
Qed.

Lemma build_weighted_sequence_loop_exits
  (PREFS : list pref_row) (traveler_type : string) (days : Z) :
  guard (Z.max (days * 3 - 1) 0)
        (loop_state PREFS traveler_type days (Z.to_nat (Z.max (days * 3 - 1) 0)))
  = false.
Proof.
  unfold loop_state. apply while_exits; [|reflexivity|lia].
  apply initial_remaining, cat_weights_nodup.
Qed.

(** C4.  When two adjacent entries of the sequence are equal, the
    category they name was the only one with quota left when the second
    of them was placed. *)
Theorem adjacent_repeat_is_forced
  (PREFS : list pref_row) (traveler_type : string) (days : Z) (i : nat) (a : string) :
  let seq := build_weighted_sequence PREFS traveler_type days in
  nth_error seq i = Some a ->
  nth_error seq (S i) = Some a ->
  forall c q,
    In (c, q) (quotas (loop_state PREFS traveler_type days (S i))) -> c = a.
Proof.
  cbv zeta. intros H1 H2.
  destruct (build_weighted_sequence_loop PREFS traveler_type days) as [E|E];
    rewrite E in H1, H2; [destruct i; discriminate|].
  unfold loop_state in *.
  set (n_keep := Z.max (days * 3 - 1) 0) in *.
  set (weights := cat_weights (select_traveler PREFS traveler_type)) in *.
  pose proof (initial_remaining weights n_keep (cat_weights_nodup _)) as Hrem.
  destruct (st_entry n_keep (dict_of_items weights) (initial_state weights n_keep)
                     Hrem eq_refl _ _ _ H1) as (_ & Hlast & _).
  destruct (st_entry n_keep (dict_of_items weights) (initial_state weights n_keep)
                     Hrem eq_refl _ _ _ H2) as (_ & _ & _ & Hforced).
  exact (Hforced Hlast).
Qed.

(** The claim at work: a single category is repeated, and nothing else is
    left when it is. *)
Lemma adjacent_repeat_is_forced_witness :
  let PREFS := [ {| row_traveler_type := "solo"; row_cat_norm := "parks"; row_weight := 1 |} ]%string in
  build_weighted_sequence PREFS "solo" 1 = ["parks"; "parks"]%string
  /\ Forall (fun cq => fst cq = "parks"%string) (quotas (loop_state PREFS "solo" 1 1)).
Proof.
  split; [reflexivity|]. apply Forall_forall. intros [c q] Hin.
  refine (adjacent_repeat_is_forced _ "solo"%string 1 0 "parks"%string _ _ c q Hin);
    reflexivity.
Defined.

(** **** The order of the candidates *)

(** The lookup of line 56 is made with the item, not with its category,
    and finds nothing: the second component of every sort key is [inf]. *)
Lemma cand_key_weight_inert (weight_map : dict Z) (kv : string * Z) :
  cand_key weight_map kv = (- snd kv, PosInf, kv).
Proof. reflexivity. Qed.

(** Hence candidates with equal quota are ordered by name alone. *)
Lemma cand_key_lt_tie (weight_map : dict Z) (c1 c2 : string) (q : Z) :
  cand_key_lt (cand_key weight_map (c1, q)) (cand_key weight_map (c2, q))
  = String.ltb c1 c2.
Proof.
  unfold cand_key_lt, cand_key, item_lt. cbn [fst snd weight_map_get ext_neg ext_eqb negb].
  rewrite Z.eqb_refl. cbn [negb].
  destruct (String.eqb_spec c1 c2) as [->|Hne]; [|reflexivity].
  now rewrite Z.ltb_irrefl, ltb_irrefl.
Qed.

(** So the weights have no part in what an iteration places. *)
Lemma body_ignores_weights (weight_map weight_map' : dict Z) (st : state) :
  body weight_map st = body weight_map' st.
Proof. reflexivity. Qed.

(** C5, on a table where the claim and the code part.  "zoo" (weight 3)
    and "cafes" (weight 2) both have one slot left at the first step and no
    category was placed before; the claim puts the heavier "zoo" first, the
    code returns "cafes" first. *)
Theorem quota_tie_ignores_weight :
  let PREFS :=
    [ {| row_traveler_type := "solo"; row_cat_norm := "zoo"; row_weight := 3 |};
      {| row_traveler_type := "solo"; row_cat_norm := "cafes"; row_weight := 2 |} ]%string in
  cat_weights (select_traveler PREFS "solo") = [("zoo", 3); ("cafes", 2)]%string
  /\ quotas (loop_state PREFS "solo" 1 0) = [("zoo", 1); ("cafes", 1)]%string
  /\ last (loop_state PREFS "solo" 1 0) = None
  /\ build_weighted_sequence PREFS "solo" 1 = ["cafes"; "zoo"]%string.
Proof. repeat split. Qed.

End Sequence.

(** * The weather adapter *)

Section WeatherAdapter.

(** Without a forecast, or below 0.5, the list is returned as it is. *)
Lemma prefer_indoor_dry (categories : list string) (fc : option forecast) :
  (fc = None
   \/ exists f p, fc = Some f /\ avg_pop f = Some p /\ (p < 1 # 2)%Q) ->
  prefer_indoor_if_rain categories fc = categories.
Proof.
  intros [->|(f & p & -> & Hp & Hlt)]; [reflexivity|].
  unfold prefer_indoor_if_rain. rewrite Hp.
  replace (Qle_bool (1 # 2) p) with false; [reflexivity|].
  symmetry. apply not_true_iff_false. rewrite Qle_bool_iff. lra.
Qed.

Lemma filter_partition_perm {A : Type} (f : A -> bool) (l : list A) :
  Permutation l (filter f l ++ filter (fun x => negb (f x)) l).
Proof.
  induction l as [|x r IH]; simpl; [constructor|].
  destruct (f x); simpl; [now constructor|].
  now apply Permutation_cons_app.
Qed.

(** With rain and at most three categories the output is the indoor
    categories followed by the outdoor ones, a permutation of the input. *)
Lemma prefer_indoor_short_list (categories : list string) (f : forecast) (p : Q) :
  avg_pop f = Some p -> (1 # 2 <= p)%Q -> (length categories <= 3)%nat ->
  prefer_indoor_if_rain categories (Some f)
  = filter indoor categories ++ filter (fun c => negb (indoor c)) categories
  /\ Permutation categories (prefer_indoor_if_rain categories (Some f)).
Proof.
  intros Hp Hle Hlen. unfold prefer_indoor_if_rain. rewrite Hp.
  replace (Qle_bool (1 # 2) p) with true by (symmetry; now apply Qle_bool_iff).
  cbn [negb]. unfold slice_to, slice_from. cbn [Z.leb Z.compare Z.to_nat Pos.to_nat Pos.iter_op Nat.add].
  pose proof (Permutation_length (filter_partition_perm indoor categories)) as Hl.
  rewrite firstn_all2 by lia. rewrite skipn_all2 by lia. rewrite app_nil_r.
  split; [reflexivity|apply filter_partition_perm].
Qed.

(** C6, on a list of four categories under rain: the output is not a
    permutation of the input, "zoo" is lost and "museums" comes twice. *)
Theorem prefer_indoor_long_list_not_a_reorder :
  let rain := {| date := None; avg_temp_c := None;
                 avg_pop := Some (9 # 10)%Q; condition := None |} in
  let categories := ["parks"; "beaches"; "zoo"; "museums"]%string in
  prefer_indoor_if_rain categories (Some rain)
  = ["museums"; "parks"; "beaches"; "museums"]%string
  /\ ~ Permutation categories (prefer_indoor_if_rain categories (Some rain)).
Proof.
  split; [reflexivity|]. intros H.
  apply (Permutation_in "zoo"%string) in H; [|simpl; tauto].
  vm_compute in H. intuition discriminate.
Qed.

(** C10.  A forecast without [avg_pop] leaves the categories as they are,
    whatever its other fields say. *)
Theorem prefer_indoor_needs_avg_pop (categories : list string) (f : forecast) :
  avg_pop f = None -> prefer_indoor_if_rain categories (Some f) = categories.
Proof. intros H. unfold prefer_indoor_if_rain. now rewrite H. Qed.

(** The claim at work: a forecast that only says "Rain". *)
Lemma prefer_indoor_needs_avg_pop_witness :
  prefer_indoor_if_rain
    ["parks"; "museums"]%string
    (Some {| date := Some "2024-07-01"%string; avg_temp_c := Some (21 # 1)%Q;
             avg_pop := None; condition := Some "Rain"%string |})
  = ["parks"; "museums"]%string.
Proof. apply prefer_indoor_needs_avg_pop. reflexivity. Defined.

End WeatherAdapter.

(** * The router *)

Section Router.
Variables radians sin cos sqrt : Q -> Q.
Variable atan2 : Q -> Q -> Q.

Local Abbreviation dist := (haversine radians sin cos sqrt atan2) (only parsing).
Local Abbreviation route_of :=
  (nearest_route radians sin cos sqrt atan2 candidate_eq_dec place_latlng) (only parsing).

Lemma remove_first_perm {P : Type} (eq_dec : forall a b : P, {a = b} + {a <> b})
      (x : P) (l : list P) :
  In x l -> Permutation l (x :: remove_first eq_dec x l).
Proof.
  induction l as [|y ys IH]; simpl; [tauto|]. intros Hin.
  destruct (eq_dec x y) as [->|Hne]; [reflexivity|].
  destruct Hin as [->|Hin]; [congruence|].
  rewrite perm_swap. constructor. now apply IH.
Qed.

Lemma map_outcome_places (cur : latlng) (unused : list candidate) :
  map_outcome (fun p => ll <- place_latlng p ;; Ok (dist cur ll, p)) unused
  = Ok (map (fun p => (dist cur (lat p, lng p), p)) unused).
Proof.
  induction unused as [|p ps IH]; [reflexivity|].
  cbn [map_outcome map]. rewrite IH. reflexivity.
Qed.

Lemma Qltb_fst_asym {B : Type} (a b : Q * B) :
  Qltb (fst a) (fst b) = true -> Qltb (fst b) (fst a) = false.
Proof. rewrite Qltb_lt, Qltb_ge. lra. Qed.

Lemma Qltb_fst_negtrans {B : Type} (a b c : Q * B) :
  Qltb (fst b) (fst a) = false -> Qltb (fst c) (fst b) = false ->
  Qltb (fst c) (fst a) = false.
Proof. rewrite !Qltb_ge. lra. Qed.

(** On places, [nearest] returns an unvisited place at the least
    distance from [cur]. *)
Lemma nearest_least (cur : latlng) (unused : list candidate) :
  unused <> [] ->
  exists nxt,
    nearest radians sin cos sqrt atan2 place_latlng cur unused = Ok nxt
    /\ In nxt unused
    /\ forall p, In p unused ->
         (dist cur (lat nxt, lng nxt) <= dist cur (lat p, lng p))%Q.
Proof.
  intros Hne. unfold nearest. rewrite map_outcome_places. simpl.
  destruct (Py.min _ _) as [[d nxt]|] eqn:Hmin.
  - apply min_least in Hmin;
      [|apply Qltb_fst_asym|intros a b c; apply Qltb_fst_negtrans].
    destruct Hmin as [Hin Hleast]. apply in_map_iff in Hin.
    destruct Hin as (p & Hp & Hin). injection Hp as Hd Hpn. subst nxt d.
    exists p. repeat split; [assumption|].
    intros p' Hp'. apply Qltb_ge.
    apply (Hleast (dist cur (lat p', lng p'), p')).
    apply in_map_iff. now exists p'.
  - destruct unused; [contradiction|discriminate].
Qed.

Lemma route_loop_greedy (fuel : nat) (cur : latlng) (unused route : list candidate) :
  (length unused <= fuel)%nat ->
  exists tail,
    route_loop radians sin cos sqrt atan2 candidate_eq_dec place_latlng
               fuel cur unused route = Ok (route ++ tail)
    /\ Permutation unused tail
    /\ greedy_route radians sin cos sqrt atan2 cur unused tail.
Proof.
  revert cur unused route. induction fuel as [|fuel IH]; intros cur unused route Hlen.
  - destruct unused; [|simpl in Hlen; lia].
    exists []. simpl. rewrite app_nil_r. repeat split; constructor.
  - destruct unused as [|p ps].
    + exists []. simpl. rewrite app_nil_r. repeat split; constructor.
    + destruct (nearest_least cur (p :: ps)) as (nxt & Hn & Hin & Hleast);
        [discriminate|].
      pose proof (remove_first_perm candidate_eq_dec nxt (p :: ps) Hin) as Hperm.
      destruct (IH (lat nxt, lng nxt)
                   (remove_first candidate_eq_dec nxt (p :: ps)) (route ++ [nxt]))
        as (tail & Hrun & Hp & Hg).
      { apply Permutation_length in Hperm. cbn [length] in Hperm, Hlen. lia. }
      exists (nxt :: tail).
      cbn [route_loop]. rewrite Hn. cbn [bind place_latlng].
      rewrite Hrun, <- app_assoc. repeat split.
      * rewrite Hperm. now constructor.
      * now constructor.
Qed.


End Router.

(** * The candidate scorer *)

Section Stable.
Context {B : Type}.
Variable key : B -> Q.

Lemma higher_lt (a b : nat * B) : higher key a b = true <-> (key (snd b) < key (snd a))%Q.
Proof. unfold higher. apply Qltb_lt. Qed.

Lemma higher_ge (a b : nat * B) : higher key a b = false <-> (key (snd a) <= key (snd b))%Q.
Proof.
  rewrite <- not_true_iff_false, higher_lt. split; [apply Qnot_lt_le|apply Qle_not_lt].
Qed.

Lemma insert_ranked (x : nat * B) (l : list (nat * B)) :
  StronglySorted (ranked key) l ->
  (forall y, In y l -> (fst x < fst y)%nat) ->
  StronglySorted (ranked key) (insert (higher key) x l).
Proof.
  induction 1 as [|y ys Hs IH Hall]; intros Hidx; simpl.
  - repeat constructor.
  - rewrite Forall_forall in Hall. destruct (higher key y x) eqn:E.
    + constructor.
      * apply IH. intros z Hz. apply Hidx. now right.
      * apply Forall_forall. intros z Hz. apply insert_in in Hz.
        destruct Hz as [->|Hz]; [|now apply Hall].
        left. now apply higher_lt.
    + apply higher_ge in E. constructor; [now constructor; [|apply Forall_forall]|].
      assert (Hxy : ranked key x y).
      { unfold ranked. apply Qle_lteq in E. destruct E as [E|E]; [now left|].
        right. split; [now symmetry|]. apply Hidx. now left. }
      constructor; [assumption|]. apply Forall_forall. intros z Hz.
      assert (Hxz : (fst x < fst z)%nat) by (apply Hidx; now right).
      specialize (Hall z Hz). unfold ranked in *.
      destruct Hxy as [Hxy|[Hxy _]], Hall as [Hyz|[Hyz _]];
        try (left; lra). right. split; [lra|assumption].
Qed.

(** A descending sort by [key] of a list in input order keeps the input
    order among equal keys. *)
Lemma sorted_ranked (l : list (nat * B)) :
  StronglySorted (fun a b => (fst a < fst b)%nat) l ->
  StronglySorted (ranked key) (sorted (higher key) l).
Proof.
  induction 1 as [|x r Hs IH Hall]; simpl; [constructor|].
  apply insert_ranked; [assumption|].
  rewrite Forall_forall in Hall. intros y Hy. apply Hall.
  now apply sorted_in in Hy.
Qed.

Lemma insert_untag (x : nat * B) (l : list (nat * B)) :
  map snd (insert (higher key) x l)
  = insert (fun a b => Qltb (key b) (key a)) (snd x) (map snd l).
Proof.
  induction l as [|y ys IH]; simpl; [reflexivity|].
  unfold higher at 1.
  destruct (Qltb _ _); simpl; [now rewrite IH|reflexivity].
Qed.

(** Sorting the tagged list and sorting the plain one agree. *)
Lemma sorted_untag (l : list (nat * B)) :
  map snd (sorted (higher key) l)
  = sorted (fun a b => Qltb (key b) (key a)) (map snd l).
Proof.
  induction l as [|x r IH]; simpl; [reflexivity|]. now rewrite insert_untag, IH.
Qed.
End Stable.

Section Tagging.
Context {B : Type}.

Lemma combine_seq_snd (l : list B) (s : nat) :
  map snd (combine (seq s (length l)) l) = l.
Proof. revert s. induction l; intros s; simpl; [reflexivity|]. now rewrite IHl. Qed.

Lemma combine_seq_fst (l : list B) (s : nat) :
  map fst (combine (seq s (length l)) l) = seq s (length l).
Proof. revert s. induction l; intros s; simpl; [reflexivity|]. now rewrite IHl. Qed.

Lemma combine_seq_in (l : list B) (s i : nat) (b : B) :
  In (i, b) (combine (seq s (length l)) l) ->
  (s <= i)%nat /\ nth_error l (i - s) = Some b.
Proof.
  revert s. induction l as [|x r IH]; intros s; simpl; [tauto|].
  intros [H|H].
  - inversion H; subst. rewrite Nat.sub_diag. split; [lia|reflexivity].
  - apply IH in H. destruct H as [Hle Hn]. split; [lia|].
    replace (i - s)%nat with (S (i - S s)) by lia. exact Hn.
Qed.

Lemma combine_seq_ascending (l : list B) (s : nat) :
  StronglySorted (fun a b : nat * B => (fst a < fst b)%nat)
                 (combine (seq s (length l)) l).
Proof.
  revert s. induction l as [|x r IH]; intros s; simpl; constructor; [apply IH|].
  apply Forall_forall. intros [i b] Hin. apply combine_seq_in in Hin. simpl. lia.
Qed.
End Tagging.

Lemma sorted_map_in {A C : Type} (R : A -> A -> Prop) (R' : C -> C -> Prop)
      (f : A -> C) (l : list A) :
  StronglySorted R l ->
  (forall a b, In a l -> In b l -> R a b -> R' (f a) (f b)) ->
  StronglySorted R' (map f l).
Proof.
  induction 1 as [|x r Hs IH Hall]; intros Hf; simpl; constructor.
  - apply IH. intros a b Ha Hb. apply Hf; now right.
  - rewrite Forall_forall in *. intros c Hc. apply in_map_iff in Hc.
    destruct Hc as (b & <- & Hb). apply Hf; [now left|now right|now apply Hall].
Qed.

Section FloatLists.

Lemma Qltb_asym (a b : Q) : Qltb a b = true -> Qltb b a = false.
Proof. rewrite Qltb_lt, Qltb_ge. lra. Qed.

Lemma Qltb_negtrans (a b c : Q) :
  Qltb b a = false -> Qltb c b = false -> Qltb c a = false.
Proof. rewrite !Qltb_ge. lra. Qed.

Lemma min_of_spec (l : list Q) :
  l <> [] -> In (min_of l) l /\ forall v, In v l -> (min_of l <= v)%Q.
Proof.
  intros Hne. unfold min_of. destruct (Py.min Qltb l) as [m|] eqn:E.
  - apply min_least in E; [|apply Qltb_asym|apply Qltb_negtrans].
    destruct E as [Hin Hleast]. split; [assumption|].
    intros v Hv. apply Qltb_ge. now apply Hleast.
  - destruct l; [contradiction|discriminate].
Qed.

Lemma max_of_spec (l : list Q) :
  l <> [] -> In (max_of l) l /\ forall v, In v l -> (v <= max_of l)%Q.
Proof.
  intros Hne. unfold max_of. destruct (Py.max Qltb l) as [m|] eqn:E.
  - apply max_greatest in E; [|apply Qltb_asym|apply Qltb_negtrans].
    destruct E as [Hin Hgreat]. split; [assumption|].
    intros v Hv. apply Qltb_ge. now apply Hgreat.
  - destruct l; [contradiction|discriminate].
Qed.

(** A min-max normalised value lies between 0 and 1. *)
Lemma normalise_bounds (v vmin vmax : Q) :
  (vmin <= v)%Q -> (v <= vmax)%Q ->
  (0 <= normalise v vmin vmax)%Q /\ (normalise v vmin vmax <= 1)%Q.
Proof.
  intros Hlo Hhi. unfold normalise. destruct (Qeq_bool vmax vmin) eqn:E.
  - split; lra.
  - apply Qeq_bool_false in E.
    assert (Hpos : (0 < vmax - vmin)%Q).
    { assert (vmin <= vmax)%Q by lra.
      destruct (Qlt_le_dec vmin vmax) as [H'|H']; [lra|].
      elim E. lra. }
    split.
    + apply Qle_shift_div_l; [assumption|lra].
    + apply Qle_shift_div_r; [assumption|lra].
Qed.

Lemma normalise_degenerate (v vmin vmax : Q) :
  (vmax == vmin)%Q -> normalise v vmin vmax = 0%Q.
Proof.
  intros H. unfold normalise. now rewrite (proj2 (Qeq_bool_iff _ _) H).
Qed.

End FloatLists.

Section Scorer.
Variables radians sin cos sqrt : Q -> Q.
Variable atan2 : Q -> Q -> Q.

Local Abbreviation dist := (haversine radians sin cos sqrt atan2) (only parsing).
Local Abbreviation scored := (scored_items radians sin cos sqrt atan2) (only parsing).
Local Abbreviation top := (score_candidates radians sin cos sqrt atan2) (only parsing).

Lemma map_combine3 {A B C D : Type} (f : A -> B) (g : A -> C) (h : A * B * C -> D)
      (l : list A) :
  map h (combine (combine l (map f l)) (map g l)) = map (fun x => h (x, f x, g x)) l.
Proof. induction l as [|x r IH]; simpl; [reflexivity|]. now rewrite IH. Qed.

Lemma scored_items_map (start_latlng : latlng) (items : list candidate) :
  let dists := map (fun x => dist start_latlng (lat x, lng x)) items in
  let ratings := map rating_of items in
  scored start_latlng items
  = map (fun x =>
           (blend (normalise (rating_of x) (min_of ratings) (max_of ratings))
                  (normalise (dist start_latlng (lat x, lng x))
                             (min_of dists) (max_of dists)), x))
        items.
Proof.
  cbv zeta. unfold scored_items.
  exact (map_combine3 (fun x => dist start_latlng (lat x, lng x)) rating_of _ items).
Qed.

Lemma score_candidates_nonempty (start_latlng : latlng) (items : list candidate) (k : Z) :
  items <> [] ->
  top start_latlng items k
  = map snd (slice_to k (sorted_reverse (fun a b => Qltb (fst a) (fst b))
                                        (scored start_latlng items))).
Proof. destruct items; [contradiction|reflexivity]. Qed.


End Scorer.


(** * The itinerary assembler *)

Section Assembler.
Variables radians sin cos sqrt : Q -> Q.
Variable atan2 : Q -> Q -> Q.
Variable candidates_for_category : latlng -> Q -> string -> Z -> list candidate.

Local Abbreviation day :=
  (plan_day radians sin cos sqrt atan2 candidates_for_category) (only parsing).

(** [chosen] holds the lists of picks, not places: with one pick or more
    [nearest_route] raises; without any the route and the slots are
    empty.  A day that is planned has no slot. *)
Lemma plan_day_has_no_slot (ll : latlng) (forecasts : list forecast)
      (i : nat) (cats : list string) (d : day_plan) :
  day ll forecasts i cats = Ok d -> plan_slots d = [].
Proof.
  unfold plan_day.
  destruct (filter nonempty _) as [|picks rest]; cbn.
  - intros [= <-]. reflexivity.
  - discriminate.
Qed.

End Assembler.

(** C9, on a traveler whose only category finds no place, and on one whose
    category finds a place.  Without candidates the day plan has no slot
    at all: nothing is marked "free exploration".  With a candidate the
    assembler raises [TypeError] and returns no plan. *)
Theorem generate_itinerary_leaves_slots_out
  (radians sin cos sqrt : Q -> Q) (atan2 : Q -> Q -> Q)
  (groq_refine : string -> latlng -> string -> list day_plan -> outcome (option string)) :
  let PREFS :=
    [ {| row_traveler_type := "solo"; row_cat_norm := "parks"; row_weight := 1 |} ]%string in
  let geocode_city (_ : string) := Some (0%Q, 0%Q) in
  let daily_forecast (_ _ : Q) (_ : Z) : list forecast := [] in
  let a_park :=
    {| name := Some "Central Park"%string; rating := Some (9 # 2)%Q; address := None;
       place_id := Some "p1"%string; lat := (1 # 10)%Q; lng := (1 # 10)%Q;
       types := []; category := "parks"%string |} in
  generate_itinerary radians sin cos sqrt atan2 PREFS geocode_city daily_forecast
                     (fun _ _ _ _ => []) groq_refine
                     "solo" "Paris" 1 None false
  = Ok {| it_destination := "Paris"%string;
          it_latlng := (0%Q, 0%Q);
          it_traveler_type := "solo"%string;
          it_plan := [ {| plan_date := None;
                          plan_weather := None;
                          plan_categories := ["parks"; "parks"]%string;
                          plan_slots := [];
                          plan_alternatives := [] |} ];
          it_llm_notes := None |}
  /\ generate_itinerary radians sin cos sqrt atan2 PREFS geocode_city daily_forecast
                        (fun _ _ _ _ => [a_park]) groq_refine
                        "solo" "Paris" 1 None false
     = Raise (TypeError "list indices must be integers or slices, not str").
Proof. split; reflexivity. Qed.

(** * Further properties of the sequence builder *)

Section Days.

Lemma firstn_plus {A : Type} (a b : nat) (l : list A) :
  firstn (a + b) l = firstn a l ++ firstn b (skipn a l).
Proof.
  revert l. induction a as [|a IH]; intros l; [reflexivity|].
  destruct l as [|x r]; simpl; [now rewrite firstn_nil|]. now rewrite IH.
Qed.

Lemma skipn_plus {A : Type} (a b : nat) (l : list A) :
  skipn (a + b) l = skipn b (skipn a l).
Proof.
  revert l. induction a as [|a IH]; intros l; [reflexivity|].
  destruct l as [|x r]; simpl; [now rewrite skipn_nil|]. apply IH.
Qed.

Lemma sequence_to_days_loop_spec (n : nat) (seq : list string) (i : nat) :
  length (sequence_to_days_loop n seq i) = n
  /\ Forall (fun chunk => (length chunk <= 3)%nat) (sequence_to_days_loop n seq i)
  /\ concat (sequence_to_days_loop n seq i) = firstn (3 * n) (skipn i seq)
  /\ forall j, (j < n)%nat ->
       nth_error (sequence_to_days_loop n seq i) j
       = Some (firstn 3 (skipn (i + 3 * j) seq)).
Proof.
  revert i. induction n as [|n IH]; intros i.
  - split; [reflexivity|split; [constructor|split; [reflexivity|]]].
    intros j Hj. lia.
  - destruct (IH (i + 3)%nat) as (Hlen & Hall & Hcat & Hnth).
    cbn [sequence_to_days_loop length concat].
    split; [|split; [|split]].
    + now rewrite Hlen.
    + constructor; [|assumption]. rewrite length_firstn. lia.
    + rewrite Hcat. replace (3 * S n)%nat with (3 + 3 * n)%nat by lia.
      now rewrite firstn_plus, skipn_plus.
    + intros [|j] Hj; cbn [nth_error].
      * now rewrite Nat.mul_0_r, Nat.add_0_r.
      * rewrite Hnth by lia.
        now replace (i + 3 * S j)%nat with (i + 3 + 3 * j)%nat by lia.
Qed.

(** X1.  [sequence_to_days] returns one chunk for each of the [days] days
    (none for [days <= 0]); chunk [j] holds the entries [3j], [3j+1],
    [3j+2] of the sequence as far as they exist; put end to end the chunks
    are the first [3*days] entries of the sequence, in order.  Entries
    beyond [3*days] are dropped, missing ones leave short or empty chunks. *)
Theorem sequence_to_days_chunks (seq : list string) (days : Z) :
  let per := sequence_to_days seq days in
  length per = Z.to_nat days
  /\ Forall (fun chunk => (length chunk <= 3)%nat) per
  /\ concat per = firstn (3 * Z.to_nat days) seq
  /\ forall j, (j < Z.to_nat days)%nat ->
       nth_error per j = Some (firstn 3 (skipn (3 * j) seq)).
Proof.
  cbv zeta. unfold sequence_to_days.
  destruct (sequence_to_days_loop_spec (Z.to_nat days) seq 0) as (H1 & H2 & H3 & H4).
  repeat split; assumption.
Qed.

End Days.

Section Weights.

Lemma group_insert_in (c : string) (w : Z) (g : list (string * Z)) (c' : string) (w' : Z) :
  ascending g ->
  In (c', w') (group_insert c w g) ->
  (c' <> c /\ In (c', w') g)
  \/ (c' = c /\ ((exists w0, In (c, w0) g /\ w' = Z.max w0 w)
                 \/ (~ In c (keys g) /\ w' = w))).
Proof.
  unfold ascending. induction 1 as [|[k v] r Hs IH Hall]; simpl.
  - intros [[= <- <-]|[]]. right. split; [reflexivity|]. right. tauto.
  - rewrite Forall_forall in Hall.
    assert (Hk : ~ In k (keys r)).
    { intros Hin. apply in_map_iff in Hin. destruct Hin as (y & Hy & Hin).
      specialize (Hall y Hin). simpl in Hall. rewrite Hy, ltb_irrefl in Hall.
      discriminate. }
    destruct (String.eqb_spec k c) as [->|Hne].
    + intros [[= <- <-]|Hin].
      * right. split; [reflexivity|]. left. exists v. tauto.
      * left. split; [|tauto]. intros ->. apply Hk.
        change c with (fst (c, w')). now apply in_map.
    + destruct (String.ltb c k) eqn:E.
      * intros [[= <- <-]|[[= <- <-]|Hin]].
        -- right. split; [reflexivity|]. right. split; [|reflexivity].
           intros [Heq|Hin]; [congruence|].
           apply in_map_iff in Hin. destruct Hin as (y & Hy & Hin).
           specialize (Hall y Hin). simpl in Hall. rewrite Hy in Hall.
           pose proof (ltb_trans _ _ _ E Hall) as Hcc. now rewrite ltb_irrefl in Hcc.
        -- left. split; [assumption|tauto].
        -- left. split; [|tauto]. intros ->.
           specialize (Hall _ Hin). simpl in Hall.
           pose proof (ltb_trans _ _ _ E Hall) as Hcc. now rewrite ltb_irrefl in Hcc.
      * intros [[= <- <-]|Hin]; [left; split; [assumption|tauto]|].
        destruct (IH Hin) as [[Hc Hin']|[-> [(w0 & Hin' & ->)|[Hni ->]]]].
        -- left. tauto.
        -- right. split; [reflexivity|]. left. exists w0. tauto.
        -- right. split; [reflexivity|]. right. split; [|reflexivity].
           intros [Heq|Hin']; [congruence|contradiction].
Qed.

Lemma group_insert_covers (c : string) (w : Z) (g : list (string * Z)) :
  In c (keys (group_insert c w g))
  /\ forall k, In k (keys g) -> In k (keys (group_insert c w g)).
Proof.
  induction g as [|[k v] r [IH1 IH2]]; simpl; [tauto|].
  destruct (String.eqb_spec k c) as [->|Hne]; simpl; [tauto|].
  destruct (String.ltb c k); simpl; [tauto|]. split; [tauto|].
  intros k' [->|H]; [tauto|]. right. now apply IH2.
Qed.

Lemma group_insert_grouped (g : list (string * Z)) (seen : list pref_row) (r : pref_row) :
  grouped g seen ->
  grouped (group_insert (row_cat_norm r) (row_weight r) g) (seen ++ [r]).
Proof.
  intros (Hasc & H1 & H2 & H3).
  split; [now apply group_insert_ascending|]. split; [|split].
  - intros c w Hin. apply (group_insert_in _ _ _ _ _ Hasc) in Hin.
    destruct Hin as [[Hne Hin]|[-> [(w0 & Hin & ->)|[Hni ->]]]].
    + destruct (H1 c w Hin) as (r0 & Hr0 & Hc & Hw).
      exists r0. split; [apply in_or_app; now left|tauto].
    + destruct (Z.max_spec w0 (row_weight r)) as [[_ ->]|[_ ->]].
      * exists r. split; [apply in_or_app; right; now left|tauto].
      * destruct (H1 _ _ Hin) as (r0 & Hr0 & Hc & Hw).
        exists r0. split; [apply in_or_app; now left|tauto].
    + exists r. split; [apply in_or_app; right; now left|tauto].
  - intros c w Hin r0 Hr0 Hc. apply (group_insert_in _ _ _ _ _ Hasc) in Hin.
    apply in_app_or in Hr0.
    destruct Hin as [[Hne Hin]|[-> [(w0 & Hin & ->)|[Hni ->]]]].
    + destruct Hr0 as [Hr0|[<-|[]]]; [now apply (H2 c w Hin)|congruence].
    + destruct Hr0 as [Hr0|[<-|[]]]; [|lia].
      specialize (H2 _ _ Hin r0 Hr0 Hc). lia.
    + destruct Hr0 as [Hr0|[<-|[]]]; [|lia].
      elim Hni. rewrite <- Hc. now apply H3.
  - intros r0 Hr0. apply in_app_or in Hr0.
    destruct (group_insert_covers (row_cat_norm r) (row_weight r) g) as [Hc Hk].
    destruct Hr0 as [Hr0|[<-|[]]]; [apply Hk; now apply H3|exact Hc].
Qed.

Lemma groupby_max_grouped (rows : list pref_row) : grouped (groupby_max rows) rows.
Proof.
  unfold groupby_max.
  assert (H : forall acc seen, grouped acc seen ->
             grouped (fold_left
                        (fun g r => group_insert (row_cat_norm r) (row_weight r) g)
                        rows acc)
                     (seen ++ rows)).
  { induction rows as [|r rs IH]; intros acc seen Hacc; simpl.
    - now rewrite app_nil_r.
    - replace (seen ++ r :: rs) with ((seen ++ [r]) ++ rs)
        by now rewrite <- app_assoc.
      apply IH. now apply group_insert_grouped. }
  apply (H [] []). unfold grouped. repeat split; try constructor; intros; contradiction.
Qed.

Lemma weight_cat_lt_true (a b : string * Z) :
  weight_cat_lt a b = true
  <-> snd b < snd a \/ (snd a = snd b /\ String.ltb (fst a) (fst b) = true).
Proof.
  unfold weight_cat_lt. destruct (Z.eqb_spec (snd a) (snd b)) as [E|E].
  - split; [tauto|]. intros [H|[_ H]]; [lia|assumption].
  - rewrite Z.ltb_lt. split; [tauto|]. intros [H|[H _]]; [assumption|contradiction].
Qed.

Lemma weight_cat_lt_false (a b : string * Z) :
  weight_cat_lt a b = false
  <-> snd a < snd b \/ (snd a = snd b /\ String.ltb (fst a) (fst b) = false).
Proof.
  unfold weight_cat_lt. destruct (Z.eqb_spec (snd a) (snd b)) as [E|E].
  - split; [tauto|]. intros [H|[_ H]]; [lia|assumption].
  - rewrite Z.ltb_ge. split; [intros H; left; lia|]. intros [H|[H _]]; [lia|contradiction].
Qed.

Lemma strict_of_distinct {B : Type} (R R' : string * B -> string * B -> Prop)
      (l : list (string * B)) :
  StronglySorted R l -> NoDup (map fst l) ->
  (forall a b, fst a <> fst b -> R a b -> R' a b) ->
  StronglySorted R' l.
Proof.
  induction 1 as [|x r Hs IH Hall]; intros Hnd Himp; simpl in *; constructor.
  - apply IH; [now inversion Hnd|assumption].
  - rewrite Forall_forall in *. intros y Hy. apply Himp; [|now apply Hall].
    inversion Hnd as [|? ? Hni _]; subst. intros E. apply Hni. rewrite E.
    now apply in_map.
Qed.

(** X2.  The weights of a traveler type, as [build_weighted_sequence]
    builds them from the rows of the table: every category of the rows
    appears exactly once, with the largest weight any of its rows gives it,
    and the list is ordered by weight descending, then by name ascending. *)
Theorem cat_weights_spec (tprefs : list pref_row) :
  let weights := cat_weights tprefs in
  NoDup (map fst weights)
  /\ (forall c w,
        In (c, w) weights
        <-> (exists r, In r tprefs /\ row_cat_norm r = c /\ row_weight r = w)
            /\ forall r, In r tprefs -> row_cat_norm r = c -> row_weight r <= w)
  /\ StronglySorted
       (fun a b => snd b < snd a
                   \/ (snd a = snd b /\ String.ltb (fst a) (fst b) = true))
       weights.
Proof.
  cbv zeta. pose proof (cat_weights_nodup tprefs) as Hnd.
  destruct (groupby_max_grouped tprefs) as (_ & H1 & H2 & H3).
  split; [exact Hnd|]. split.
  - intros c w. unfold cat_weights. rewrite sorted_in. split.
    + intros Hin. split; [now apply H1|now apply H2].
    + intros [(r & Hr & Hc & Hw) Hmax].
      specialize (H3 r Hr). rewrite Hc in H3. apply in_map_iff in H3.
      destruct H3 as ([c' w'] & Hfst & Hin). simpl in Hfst. subst c'.
      destruct (H1 _ _ Hin) as (r' & Hr' & Hc' & Hw').
      pose proof (H2 _ _ Hin r Hr Hc). pose proof (Hmax r' Hr' Hc').
      replace w with w' by lia. exact Hin.
  - apply (strict_of_distinct (before weight_cat_lt)); [|exact Hnd|].
    + unfold cat_weights. apply sorted_sorted.
      * intros a b. rewrite weight_cat_lt_true, weight_cat_lt_false.
        intros [H|[H1' H2']]; [now left|]. right. split; [lia|now apply ltb_asym].
      * intros a b c. rewrite !weight_cat_lt_false.
        intros [Ha|[Ha Ha']] [Hb|[Hb Hb']]; try (left; lia).
        right. split; [lia|]. now apply (ltb_negtrans _ (fst b)).
    + intros a b Hne Hab. unfold before in Hab. apply weight_cat_lt_false in Hab.
      destruct Hab as [H|[H H']]; [now left|]. right. split; [lia|].
      destruct (ltb_total _ _ Hne); congruence.
Qed.

End Weights.

Section Realisation.

Lemma dict_get_app {V : Type} (d1 d2 : dict V) (c : string) :
  dict_get (d1 ++ d2) c
  = match dict_get d1 c with Some v => Some v | None => dict_get d2 c end.
Proof.
  induction d1 as [|[k v] r IH]; simpl; [reflexivity|].
  destruct (String.eqb k c); [reflexivity|exact IH].
Qed.

Lemma dict_get_absent {V : Type} (d : dict V) (c : string) :
  ~ In c (keys d) -> dict_get d c = None.
Proof.
  induction d as [|[k v] r IH]; simpl; [reflexivity|]. intros Hni.
  destruct (String.eqb_spec k c) as [->|Hne]; [tauto|]. apply IH. tauto.
Qed.

(** The quotas after placing [cat]: its entry is lowered by one, or
    removed when it reaches 0; nothing else changes. *)
Lemma place_quotas (st : state) (cat : string) (q : Z) :
  remaining (quotas st) -> In (cat, q) (quotas st) ->
  exists d1 d2,
    quotas st = d1 ++ (cat, q) :: d2
    /\ ~ In cat (keys d1) /\ ~ In cat (keys d2)
    /\ quotas (place_category st cat q)
       = (if q - 1 <=? 0 then d1 ++ d2 else d1 ++ (cat, q - 1) :: d2).
Proof.
  intros [Hnd Hpos] Hin. destruct (in_split _ _ Hin) as (d1 & d2 & Hd).
  exists d1, d2. rewrite Hd in Hnd. rewrite keys_app in Hnd. simpl in Hnd.
  assert (Hn1 : ~ In cat (keys d1)).
  { intros H. apply NoDup_remove_2 in Hnd. apply Hnd, in_or_app. now left. }
  assert (Hn2 : ~ In cat (keys d2)).
  { intros H. apply NoDup_remove_2 in Hnd. apply Hnd, in_or_app. now right. }
  repeat split; try assumption.
  unfold place_category. cbn [quotas]. rewrite Hd.
  rewrite (dict_set_middle d1 d2 cat q (q - 1) Hn1).
  unfold dict_at. rewrite (dict_get_middle d1 d2 cat (q - 1) Hn1).
  destruct (q - 1 <=? 0); [now rewrite dict_del_middle|reflexivity].
Qed.

Lemma place_keys (st : state) (cat : string) (q : Z) (c : string) :
  remaining (quotas st) -> In (cat, q) (quotas st) ->
  In c (keys (quotas (place_category st cat q))) -> In c (keys (quotas st)).
Proof.
  intros Hrem Hin. destruct (place_quotas st cat q Hrem Hin) as (d1 & d2 & -> & _ & _ & ->).
  destruct (q - 1 <=? 0); rewrite !keys_app; simpl; intros H;
    apply in_app_or in H; apply in_or_app; simpl; tauto.
Qed.

Lemma place_at (st : state) (cat : string) (q : Z) (c : string) :
  remaining (quotas st) -> In (cat, q) (quotas st) ->
  dict_at 0 (quotas (place_category st cat q)) c
  = dict_at 0 (quotas st) c - (if string_dec cat c then 1 else 0).
Proof.
  intros Hrem Hin.
  destruct (place_quotas st cat q Hrem Hin) as (d1 & d2 & Hd & Hn1 & Hn2 & ->).
  assert (Hq : 0 < q) by (apply (proj2 Hrem cat); assumption).
  rewrite Hd. unfold dict_at.
  destruct (string_dec cat c) as [<-|Hne].
  - rewrite (dict_get_middle d1 d2 cat q Hn1).
    destruct (q - 1 <=? 0) eqn:E.
    + rewrite dict_get_app, (dict_get_absent d1), (dict_get_absent d2) by assumption.
      apply Z.leb_le in E. lia.
    + now rewrite (dict_get_middle d1 d2 cat (q - 1) Hn1).
  - rewrite Z.sub_0_r.
    destruct (q - 1 <=? 0); rewrite !dict_get_app; simpl;
      rewrite (proj2 (String.eqb_neq cat c) Hne); reflexivity.
Qed.

Lemma count_occ_snoc (l : list string) (a c : string) :
  Z.of_nat (count_occ string_dec (l ++ [a]) c)
  = Z.of_nat (count_occ string_dec l c) + (if string_dec a c then 1 else 0).
Proof.
  rewrite count_occ_app. simpl. destruct (string_dec a c); lia.
Qed.

Section Run.
Variable n_keep : Z.
Variable weight_map : dict Z.
Variable st0 : state.
Hypothesis st0_remaining : remaining (quotas st0).
Hypothesis st0_result : result st0 = [].

Local Abbreviation st k := (while k n_keep weight_map st0) (only parsing).

Lemma st_step_place (k : nat) :
  guard n_keep (st k) = true ->
  exists cat q,
    In (cat, q) (quotas (st k)) /\ st (S k) = place_category (st k) cat q.
Proof.
  intros G. pose proof (st_remaining n_keep weight_map st0 st0_remaining k) as Hrem.
  rewrite while_S, G. apply andb_true_iff in G. destruct G as [_ G].
  destruct (body_spec weight_map _ Hrem) as (cat & q & Hin & -> & _).
  { intros E. now rewrite E in G. }
  now exists cat, q.
Qed.

(** Placed entries and quota left add up to the initial quota, category by
    category; and nothing is placed or kept that had no initial quota. *)
Lemma st_balance (k : nat) :
  (forall c, Z.of_nat (count_occ string_dec (result (st k)) c)
             + dict_at 0 (quotas (st k)) c
             = dict_at 0 (quotas st0) c)
  /\ (forall c, In c (keys (quotas (st k))) -> In c (keys (quotas st0)))
  /\ (forall c, In c (result (st k)) -> In c (keys (quotas st0))).
Proof.
  induction k as [|k (IH1 & IH2 & IH3)].
  - simpl. rewrite st0_result. repeat split; try tauto. intros c. simpl. lia.
  - pose proof (st_remaining n_keep weight_map st0 st0_remaining k) as Hrem.
    destruct (guard n_keep (st k)) eqn:G.
    + destruct (st_step_place k G) as (cat & q & Hin & ->).
      destruct (place_spec _ cat q Hrem Hin) as (_ & _ & Hr & _).
      split; [|split].
      * intros c. rewrite Hr, count_occ_snoc, place_at by assumption.
        specialize (IH1 c). lia.
      * intros c Hc. apply IH2. now apply (place_keys _ cat q).
      * intros c Hc. rewrite Hr in Hc. apply in_app_or in Hc.
        destruct Hc as [Hc|[<-|[]]]; [now apply IH3|].
        apply IH2. change cat with (fst (cat, q)). now apply in_map.
    + rewrite (st_stop n_keep weight_map st0 k G). tauto.
Qed.
End Run.

Lemma filter_positive_at (d : dict Z) (c : string) :
  NoDup (keys d) -> (forall k q, In (k, q) d -> 0 <= q) ->
  dict_at 0 (filter (fun cq => 0 <? snd cq) d) c = dict_at 0 d c.
Proof.
  unfold dict_at. induction d as [|[k v] r IH]; simpl; [reflexivity|].
  intros Hnd Hpos. inversion Hnd as [|? ? Hni Hnd']; subst.
  assert (IH' := IH Hnd' (fun k q H => Hpos k q (or_intror H))).
  destruct (0 <? v) eqn:E; simpl.
  - destruct (String.eqb k c); [reflexivity|exact IH'].
  - destruct (String.eqb_spec k c) as [->|Hne]; [|exact IH'].
    rewrite dict_get_absent.
    + specialize (Hpos c v (or_introl eq_refl)). apply Z.ltb_ge in E. lia.
    + intros Hin. apply Hni. unfold keys in *. apply in_map_iff in Hin.
      destruct Hin as (y & Hy & Hin). apply filter_In in Hin.
      rewrite <- Hy. apply in_map. tauto.
Qed.

Lemma filter_nonpositive (d : dict Z) :
  (forall k q, In (k, q) d -> q = 0) -> filter (fun cq => 0 <? snd cq) d = [].
Proof.
  induction d as [|[k v] r IH]; simpl; [reflexivity|]. intros H.
  rewrite (H k v (or_introl eq_refl)). simpl. apply IH.
  intros k' q' Hin. apply (H k'). now right.
Qed.

(** Non-negative weights give non-negative quotas. *)
Lemma quotas_nonneg (weights : list (string * Z)) (n_total : Z) :
  NoDup (map fst weights) ->
  (forall c w, In (c, w) weights -> 0 <= w) ->
  0 < sum (map snd weights) -> 0 < n_total ->
  forall c q, In (c, q) (proportional_quotas weights n_total) -> 0 <= q.
Proof.
  intros Hnd Hpos Ht Hn. unfold proportional_quotas.
  replace ((sum (map snd weights) =? 0) || (n_total <=? 0)) with false
    by (symmetry; apply orb_false_iff; split; lia).
  cbv zeta.
  assert (Hbase : forall c q,
             In (c, q) (floors (raw_shares weights n_total (sum (map snd weights))))
             -> 0 <= q).
  { intros c q. rewrite floors_nodup by assumption. rewrite in_map_iff.
    intros ([c' w] & Heq & Hin). inversion Heq; subst.
    apply Z.div_pos; [|assumption]. specialize (Hpos _ _ Hin). simpl. nia. }
  destruct (0 <? _) eqn:Hrem; [|exact Hbase].
  set (raw := raw_shares _ _ _) in *. set (base := floors raw) in *.
  set (frac := fractions weights raw base). unfold distribute.
  destruct (distribute_acc
              (fun i => snd (nth (Nat.modulo i (length frac)) frac (0%Q, EmptyString)))
              (seq 0 (Z.to_nat (n_total - sum (values base)))) base)
    as (_ & _ & Hq).
  { intros i _. unfold base, raw. rewrite floors_keys by assumption.
    apply (fractions_names weights raw base).
    apply nth_In. apply Nat.mod_upper_bound.
    unfold frac. rewrite fractions_length.
    destruct weights; simpl in *; [lia|discriminate]. }
  intros c q Hin. destruct (Hq c q Hin) as (q0 & H0 & Hq0).
  specialize (Hbase _ _ H0). lia.
Qed.

End Realisation.

Section SequenceContent.

Lemma positive_sum_nil (d : dict Z) :
  (forall c q, In (c, q) d -> 0 < q) -> sum (values d) = 0 -> d = [].
Proof.
  destruct d as [|[k v] r]; [reflexivity|]. intros Hpos Hsum. exfalso.
  assert (0 < v) by (apply (Hpos k); now left).
  assert (0 <= sum (values r)).
  { apply sum_nonneg. intros w Hw. unfold values in Hw. apply in_map_iff in Hw.
    destruct Hw as ([k' v'] & <- & Hin). simpl.
    assert (0 < v') by (apply (Hpos k'); now right). lia. }
  simpl in Hsum. unfold values in *. lia.
Qed.

Lemma filter_nonneg_sum (d : dict Z) :
  (forall c q, In (c, q) d -> 0 <= q) ->
  sum (values (filter (fun cq => 0 <? snd cq) d)) = sum (values d).
Proof.
  induction d as [|[k v] r IH]; simpl; [reflexivity|]. intros Hpos.
  assert (IH' := IH (fun c q H => Hpos c q (or_intror H))).
  assert (0 <= v) by (apply (Hpos k); now left).
  destruct (0 <? v) eqn:E; simpl; unfold values in *; [lia|].
  apply Z.ltb_ge in E. lia.
Qed.

Lemma cat_weights_rows (tprefs : list pref_row) (c : string) (w : Z) :
  In (c, w) (cat_weights tprefs) ->
  exists r, In r tprefs /\ row_cat_norm r = c /\ row_weight r = w.
Proof.
  unfold cat_weights. rewrite sorted_in.
  destruct (groupby_max_grouped tprefs) as (_ & H1 & _). apply H1.
Qed.

(** X3.  [build_weighted_sequence] returns the empty sequence when the
    traveler type has no row in the table, when [days <= 0], and when the
    weights of the type add up to 0. *)
Theorem build_weighted_sequence_empty
  (PREFS : list pref_row) (traveler_type : string) (days : Z) :
  select_traveler PREFS traveler_type = []
  \/ days <= 0
  \/ sum (map snd (cat_weights (select_traveler PREFS traveler_type))) = 0 ->
  build_weighted_sequence PREFS traveler_type days = [].
Proof.
  unfold build_weighted_sequence.
  destruct (select_traveler PREFS traveler_type) as [|r rs] eqn:Hsel; [reflexivity|].
  intros [H|[H|H]]; [discriminate| |].
  - replace (Z.max (days * 3 - 1) 0) with 0 by lia. reflexivity.
  - destruct (Z.max (days * 3 - 1) 0 =? 0); [reflexivity|].
    set (weights := cat_weights (r :: rs)) in *.
    set (n_keep := Z.max (days * 3 - 1) 0).
    assert (Hq : initial_quotas weights n_keep = []).
    { unfold initial_quotas, proportional_quotas. rewrite H. cbn [Z.eqb orb].
      apply filter_nonpositive. intros k q.
      rewrite dict_of_items_nodup.
      - rewrite in_map_iff. intros (cw & Heq & _). now inversion Heq.
      - rewrite map_map. cbn [fst]. apply cat_weights_nodup. }
    rewrite while_stop.
    + cbn [initial_state result]. unfold slice_to.
      destruct (0 <=? n_keep); apply firstn_nil.
    + unfold guard, initial_state. cbn [quotas]. rewrite Hq. apply andb_false_r.
Qed.

(** The property at work: no row for "couple". *)
Lemma build_weighted_sequence_empty_witness :
  build_weighted_sequence
    [ {| row_traveler_type := "solo"; row_cat_norm := "parks"; row_weight := 1 |} ]%string
    "couple" 2 = [].
Proof. apply build_weighted_sequence_empty. left. reflexivity. Defined.

Lemma initial_keys (weights : list (string * Z)) (n_keep : Z) (c : string) :
  NoDup (map fst weights) ->
  In c (keys (initial_quotas weights n_keep)) -> In c (map fst weights).
Proof.
  intros Hnd Hin. rewrite <- (proj1 (quotas_shape weights n_keep Hnd)).
  unfold initial_quotas, keys in *. apply in_map_iff in Hin.
  destruct Hin as (y & <- & Hin). apply filter_In in Hin. apply in_map. tauto.
Qed.


(** X5.  With non-negative weights of positive total and [days >= 1], the
    sequence holds every category exactly as often as its quota says;
    a category without a quota does not occur. *)
Theorem build_weighted_sequence_counts
  (PREFS : list pref_row) (traveler_type : string) (days : Z) :
  1 <= days ->
  (forall r, In r (select_traveler PREFS traveler_type) -> 0 <= row_weight r) ->
  0 < sum (map snd (cat_weights (select_traveler PREFS traveler_type))) ->
  forall c,
    Z.of_nat (count_occ string_dec (build_weighted_sequence PREFS traveler_type days) c)
    = dict_at 0 (proportional_quotas (cat_weights (select_traveler PREFS traveler_type))
                                     (days * 3 - 1)) c.
Proof.
  intros Hdays Hrows Ht c. unfold build_weighted_sequence.
  destruct (select_traveler PREFS traveler_type) as [|r rs] eqn:Hsel.
  { rewrite cat_weights_nil in Ht. simpl in Ht. lia. }
  set (weights := cat_weights (r :: rs)) in *.
  pose proof (cat_weights_nodup (r :: rs)) as Hnd. fold weights in Hnd.
  replace (Z.max (days * 3 - 1) 0) with (days * 3 - 1) by lia.
  set (n_keep := days * 3 - 1) in *.
  assert (Hn : 0 < n_keep) by (unfold n_keep; lia).
  replace (n_keep =? 0) with false by (symmetry; apply Z.eqb_neq; lia).
  assert (Hw : forall k w, In (k, w) weights -> 0 <= w).
  { intros k w Hin. apply cat_weights_rows in Hin.
    destruct Hin as (r' & Hr' & _ & <-). now apply Hrows. }
  pose proof (quotas_nonneg weights n_keep Hnd Hw Ht Hn) as Hq.
  destruct (quotas_shape weights n_keep Hnd) as [Hkeys Hsum].
  specialize (Hsum Ht Hn).
  pose proof (initial_remaining weights n_keep Hnd) as Hrem.
  assert (Hsum0 : sum (values (quotas (initial_state weights n_keep))) = n_keep).
  { cbn [initial_state quotas]. unfold initial_quotas.
    now rewrite filter_nonneg_sum. }
  set (wm := dict_of_items weights). set (st0 := initial_state weights n_keep) in *.
  pose proof (st_full n_keep wm st0 Hrem eq_refl (Z.to_nat n_keep)
                      ltac:(lia) ltac:(lia)) as Hfull.
  pose proof (st_sum n_keep wm st0 Hrem eq_refl (Z.to_nat n_keep)) as Hbal.
  destruct (st_balance n_keep wm st0 Hrem eq_refl (Z.to_nat n_keep)) as (Hcount & _ & _).
  pose proof (st_remaining n_keep wm st0 Hrem (Z.to_nat n_keep)) as [_ Hpos].
  assert (Hnil : quotas (while (Z.to_nat n_keep) n_keep wm st0) = []).
  { apply positive_sum_nil; [exact Hpos|]. rewrite Hfull in Hbal. lia. }
  specialize (Hcount c). rewrite Hnil in Hcount.
  unfold slice_to. replace (0 <=? n_keep) with true by (symmetry; apply Z.leb_le; lia).
  rewrite firstn_all2 by lia.
  unfold st0 in *. cbn [initial_state quotas] in Hcount.
  unfold initial_quotas in Hcount.
  rewrite filter_positive_at in Hcount; [|now rewrite Hkeys|exact Hq].
  unfold dict_at at 1 in Hcount. simpl in Hcount. lia.
Qed.

(** The property at work: two rows, one day. *)
Lemma build_weighted_sequence_counts_witness :
  let PREFS := [ {| row_traveler_type := "solo"; row_cat_norm := "zoo"; row_weight := 3 |};
                 {| row_traveler_type := "solo"; row_cat_norm := "cafes"; row_weight := 2 |} ]%string in
  Z.of_nat (count_occ string_dec (build_weighted_sequence PREFS "solo" 1) "zoo"%string)
  = dict_at 0 (proportional_quotas (cat_weights (select_traveler PREFS "solo")) (1 * 3 - 1))
            "zoo"%string.
Proof.
  intros PREFS.
  apply (build_weighted_sequence_counts PREFS "solo"%string 1).
  - lia.
  - simpl. intros r [<-|[<-|[]]]; simpl; lia.
  - reflexivity.
Defined.

End SequenceContent.

(** * Further properties of the quota allocator *)

Section Units.
Variable weights : list (string * Z).
Variable n_total : Z.
Hypothesis names_distinct : NoDup (map fst weights).
Hypothesis total_positive : 0 < sum (map snd weights).
Hypothesis target_positive : 0 < n_total.

Local Abbreviation total_w := (sum (map snd weights)) (only parsing).
Local Abbreviation floor_of w := (n_total * w / total_w) (only parsing).
Local Abbreviation frac_of w :=
  ((inject_Z (n_total * w) / inject_Z total_w - inject_Z (floor_of w))%Q) (only parsing).

(** The categories that receive a unit of the remainder: as many as the
    remainder, each once, and each ahead of every category that receives
    none in the order of the fraction tuples. *)
Lemma units_spec :
  exists cs : list string,
    NoDup cs
    /\ (forall c, In c cs -> In c (map fst weights))
    /\ Z.of_nat (length cs)
       = Z.max 0 (n_total - sum (map (fun cw => floor_of (snd cw)) weights))
    /\ (forall c w, In (c, w) weights ->
          dict_get (proportional_quotas weights n_total) c
          = Some (floor_of w + (if in_dec string_dec c cs then 1 else 0)))
    /\ (forall c1 w1 c2 w2,
          In (c1, w1) weights -> In (c2, w2) weights ->
          In c1 cs -> ~ In c2 cs ->
          frac_lt (frac_of w2, c2) (frac_of w1, c1) = true).
Proof.
  unfold proportional_quotas.
  replace ((total_w =? 0) || (n_total <=? 0)) with false
    by (symmetry; apply orb_false_iff; split; lia).
  cbv zeta.
  pose proof (floors_nodup weights n_total names_distinct total_positive) as Hfl.
  pose proof (raw_shares_nodup weights n_total names_distinct) as Hraw.
  set (raw := raw_shares weights n_total total_w) in *.
  set (base := floors raw) in *.
  assert (Hbase : forall c w, In (c, w) weights -> dict_get base c = Some (floor_of w)).
  { intros c w Hin. rewrite Hfl.
    apply (dict_get_map_nodup (fun cw => n_total * snd cw / total_w)
                              weights c w names_distinct Hin). }
  assert (Hkeys : keys base = map fst weights).
  { rewrite Hfl. unfold keys. rewrite map_map. now apply map_ext. }
  assert (Hvals : sum (values base) = sum (map (fun cw => floor_of (snd cw)) weights)).
  { rewrite Hfl. unfold values. now rewrite map_map. }
  assert (Hlen : n_total - sum (values base) <= Z.of_nat (length weights)).
  { rewrite Hvals. apply (remainder_le_length weights n_total total_positive). }
  set (frac := fractions weights raw base).
  assert (Hr : (Z.to_nat (n_total - sum (values base)) <= length frac)%nat)
    by (unfold frac; rewrite fractions_length; lia).
  destruct (0 <? n_total - sum (values base)) eqn:Hrem.
  - rewrite (distribute_firstn frac _ base Hr).
    set (r := Z.to_nat (n_total - sum (values base))) in *.
    set (cs := map snd (firstn r frac)).
    assert (Hcs : forall c', In c' cs -> In c' (keys base)).
    { intros c' Hc'. rewrite Hkeys. unfold cs in Hc'.
      apply in_map_iff in Hc'. destruct Hc' as (fc & <- & Hfc).
      apply (fractions_names weights raw base). eapply in_firstn. exact Hfc. }
    assert (Hnd_cs : NoDup cs).
    { unfold cs. rewrite <- firstn_map. apply nodup_firstn.
      now apply fractions_nodup. }
    exists cs. split; [exact Hnd_cs|]. split; [now rewrite <- Hkeys|].
    split; [|split].
    + unfold cs. rewrite length_map, length_firstn, <- Hvals.
      apply Z.ltb_lt in Hrem. unfold r in *. lia.
    + intros c w Hin. destruct (fold_incr_at cs base c Hcs) as (Hk & Hv).
      rewrite dict_at_get
        by (rewrite Hk, Hkeys; change c with (fst (c, w)); now apply in_map).
      rewrite Hv. unfold dict_at. rewrite (Hbase c w Hin). f_equal. f_equal.
      destruct (in_dec string_dec c cs) as [Hc|Hc].
      * pose proof (proj1 (NoDup_count_occ string_dec cs) Hnd_cs c).
        pose proof (proj1 (count_occ_In string_dec cs c) Hc). lia.
      * now rewrite (proj1 (count_occ_not_In string_dec cs c) Hc).
    + intros c1 w1 c2 w2 H1 H2 Hc1 Hc2.
      assert (Hne : c2 <> c1) by (intros ->; contradiction).
      assert (Hentry : forall c w, In (c, w) weights -> In (frac_of w, c) frac).
      { intros c w Hin. unfold frac, fractions, sorted_reverse.
        apply sorted_in. apply in_map_iff. exists (c, w). split; [|assumption].
        cbn [fst snd]. f_equal. unfold dict_at.
        rewrite (Hbase c w Hin). rewrite Hraw.
        rewrite (dict_get_map_nodup
                   (fun cw => (inject_Z (n_total * snd cw) / inject_Z total_w)%Q)
                   weights c w names_distinct Hin).
        reflexivity. }
      pose proof (Hentry c1 w1 H1) as He1. pose proof (Hentry c2 w2 H2) as He2.
      pose proof (fractions_nodup weights raw base names_distinct) as Hndf.
      fold frac in Hndf.
      pose proof (fractions_sorted weights raw base) as Hsorted. fold frac in Hsorted.
      rewrite <- (firstn_skipn r frac) in He1, He2, Hsorted, Hndf.
      assert (He1' : In (frac_of w1, c1) (firstn r frac)).
      { apply in_app_or in He1. destruct He1 as [He1|He1]; [assumption|].
        exfalso. unfold cs in Hc1. apply in_map_iff in Hc1.
        destruct Hc1 as ([f c] & Hc & Hin). simpl in Hc. subst c.
        rewrite map_app in Hndf.
        apply (nodup_app_disjoint _ _ c1 Hndf).
        - change c1 with (snd (f, c1)). now apply in_map.
        - change c1 with (snd (frac_of w1, c1)). now apply in_map. }
      assert (He2' : In (frac_of w2, c2) (skipn r frac)).
      { apply in_app_or in He2. destruct He2 as [He2|He2]; [|assumption].
        exfalso. apply Hc2. unfold cs.
        change c2 with (snd (frac_of w2, c2)). now apply in_map. }
      pose proof (sorted_split _ _ _ _ _ Hsorted He1' He2') as Hord.
      cbv beta in Hord. apply frac_lt_total in Hord; [exact Hord|simpl; congruence].
  - exists []. split; [constructor|]. split; [intros c []|]. split; [|split].
    + apply Z.ltb_ge in Hrem. rewrite <- Hvals. simpl. lia.
    + intros c w Hin. rewrite (Hbase c w Hin). simpl. f_equal. lia.
    + intros c1 w1 c2 w2 _ _ [].
Qed.

End Units.

Section Fairness.

Lemma share_lt (a b t : Z) :
  0 < t -> ((inject_Z a / inject_Z t < inject_Z b / inject_Z t)%Q <-> a < b).
Proof.
  intros Ht. unfold Qdiv. rewrite Qmult_lt_r, <- Zlt_Qlt; [reflexivity|].
  apply Qinv_lt_0_compat. rewrite Zlt_Qlt in Ht. exact Ht.
Qed.

Lemma share_eq (a b t : Z) :
  0 < t -> ((inject_Z a / inject_Z t == inject_Z b / inject_Z t)%Q <-> a = b).
Proof.
  intros Ht. unfold Qdiv. rewrite Qmult_inj_r, inject_Z_injective; [reflexivity|].
  assert (0 < / inject_Z t)%Q
    by (apply Qinv_lt_0_compat; rewrite Zlt_Qlt in Ht; exact Ht).
  intros E. rewrite E in H. now apply Qlt_irrefl in H.
Qed.

(** The fractional part of a share is the remainder of the division over
    the total weight. *)
Lemma frac_is_remainder (a t : Z) :
  0 < t ->
  (inject_Z a / inject_Z t - inject_Z (a / t) == inject_Z (a mod t) / inject_Z t)%Q.
Proof.
  intros Ht. rewrite (Z.div_mod a t) at 1 by lia.
  rewrite inject_Z_plus, inject_Z_mult.
  assert (~ (inject_Z t == 0)%Q).
  { change 0%Q with (inject_Z 0). rewrite inject_Z_injective. lia. }
  field. assumption.
Qed.



Lemma remainder_sum (n t : Z) (l : list (string * Z)) :
  0 < t ->
  sum (map (fun cw => (n * snd cw) mod t) l)
  = n * sum (map snd l) - t * sum (map (fun cw => n * snd cw / t) l).
Proof.
  intros Ht. induction l as [|[c w] r IH]; simpl; [lia|].
  pose proof (Z.div_mod (n * w) t ltac:(lia)).
  change (fold_right Z.add 0) with sum in *. lia.
Qed.

Lemma remainder_bound (n t : Z) (l : list (string * Z)) :
  0 < t ->
  sum (map (fun cw => (n * snd cw) mod t) l)
  <= (t - 1) * Z.of_nat (length (filter (fun cw => negb ((n * snd cw) mod t =? 0)) l)).
Proof.
  intros Ht. induction l as [|[c w] r IH]; [simpl; lia|].
  cbn [map sum fold_right filter snd].
  change (fold_right Z.add 0) with sum in *.
  pose proof (Z.mod_pos_bound (n * w) t Ht).
  destruct (Z.eqb_spec ((n * w) mod t) 0) as [E|E]; cbn [negb length].
  - lia.
  - rewrite Nat2Z.inj_succ. lia.
Qed.



End Fairness.

Section ListingOrder.

Lemma sum_perm (l l' : list Z) : Permutation l l' -> sum l = sum l'.
Proof. induction 1; simpl; lia. Qed.

Lemma dict_get_of_entry {V : Type} (d : dict V) (c : string) (v : V) :
  NoDup (keys d) -> In (c, v) d -> dict_get d c = Some v.
Proof.
  intros Hnd Hin. destruct (in_split _ _ Hin) as (d1 & d2 & ->).
  apply dict_get_middle. rewrite keys_app in Hnd. simpl in Hnd.
  intros H. apply NoDup_remove_2 in Hnd. apply Hnd, in_or_app. now left.
Qed.

(** X8.  The quota of a category does not depend on the order in which
    the categories are listed: two lists of the same pairs, with distinct
    names and a total weight that is not negative, give every category the
    same quota. *)
Theorem quotas_listing_order (weights weights' : list (string * Z)) (n_total : Z) :
  NoDup (map fst weights) ->
  0 <= sum (map snd weights) ->
  Permutation weights weights' ->
  forall c,
    dict_at 0 (proportional_quotas weights n_total) c
    = dict_at 0 (proportional_quotas weights' n_total) c.
Proof.
  intros Hnd Hnonneg Hperm c.
  assert (Hnd' : NoDup (map fst weights'))
    by (eapply Permutation_NoDup; [apply Permutation_map; exact Hperm|exact Hnd]).
  assert (Hsum : sum (map snd weights') = sum (map snd weights))
    by (symmetry; apply sum_perm, Permutation_map, Hperm).
  destruct (in_dec string_dec c (map fst weights)) as [Hc|Hc].
  2:{ (* not a category: no entry in either dict *)
    unfold dict_at. rewrite !dict_get_absent; [reflexivity| |].
    - rewrite (proj1 (quotas_shape weights' n_total Hnd')). intros H. apply Hc.
      eapply Permutation_in; [apply Permutation_sym, Permutation_map; exact Hperm|exact H].
    - now rewrite (proj1 (quotas_shape weights n_total Hnd)). }
  apply in_map_iff in Hc. destruct Hc as ([c' w] & Hfst & Hin). simpl in Hfst. subst c'.
  assert (Hin' : In (c, w) weights') by (eapply Permutation_in; eassumption).
  destruct (Z.ltb_spec 0 (sum (map snd weights))) as [Ht|Ht];
    [destruct (Z.ltb_spec 0 n_total) as [Hn|Hn]|].
  - (* the proportional branch *)
    destruct (units_spec weights n_total Hnd Ht Hn)
      as (cs & Hndcs & Hsub & Hlen & Hget & Hord).
    destruct (units_spec weights' n_total Hnd' ltac:(lia) Hn)
      as (cs' & Hndcs' & Hsub' & Hlen' & Hget' & Hord').
    unfold dict_at. rewrite (Hget c w Hin), (Hget' c w Hin'), Hsum.
    f_equal. rewrite Hsum in Hlen', Hord'.
    assert (Hlens : length cs = length cs').
    { assert (sum (map (fun cw => n_total * snd cw / sum (map snd weights)) weights)
              = sum (map (fun cw => n_total * snd cw / sum (map snd weights)) weights'))
        by (apply sum_perm, Permutation_map, Hperm).
      lia. }
    (* a category of one list of receivers that is missing in the other
       would be both above and below one that is missing the other way *)
    assert (Hswap : forall (xs ys : list string),
               NoDup xs -> NoDup ys -> length xs = length ys ->
               forall a, In a xs -> ~ In a ys -> exists b, In b ys /\ ~ In b xs).
    { intros xs ys Hx Hy Hl a Ha Hna.
      destruct (Exists_dec (fun b => ~ In b xs) ys) as [He|He].
      - intros b. destruct (in_dec string_dec b xs); [right|left]; tauto.
      - apply Exists_exists in He. exact He.
      - exfalso. apply Hna.
        assert (Hincl : incl ys xs).
        { intros b Hb. destruct (in_dec string_dec b xs) as [H|H]; [exact H|].
          elim He. apply Exists_exists. now exists b. }
        apply (NoDup_length_incl Hy) in Hincl; [now apply Hincl|lia]. }
    assert (Hsame : forall a, In a cs <-> In a cs').
    { assert (Hone : forall xs ys,
                 NoDup xs -> NoDup ys -> length xs = length ys ->
                 (forall a, In a xs -> In a (map fst weights)) ->
                 (forall a, In a ys -> In a (map fst weights)) ->
                 (forall c1 w1 c2 w2, In (c1, w1) weights -> In (c2, w2) weights ->
                    In c1 xs -> ~ In c2 xs ->
                    frac_lt ((inject_Z (n_total * w2) / inject_Z (sum (map snd weights))
                              - inject_Z (n_total * w2 / sum (map snd weights)))%Q, c2)
                            ((inject_Z (n_total * w1) / inject_Z (sum (map snd weights))
                              - inject_Z (n_total * w1 / sum (map snd weights)))%Q, c1)
                    = true) ->
                 (forall c1 w1 c2 w2, In (c1, w1) weights -> In (c2, w2) weights ->
                    In c1 ys -> ~ In c2 ys ->
                    frac_lt ((inject_Z (n_total * w2) / inject_Z (sum (map snd weights))
                              - inject_Z (n_total * w2 / sum (map snd weights)))%Q, c2)
                            ((inject_Z (n_total * w1) / inject_Z (sum (map snd weights))
                              - inject_Z (n_total * w1 / sum (map snd weights)))%Q, c1)
                    = true) ->
                 forall a, In a xs -> In a ys).
      { intros xs ys Hx Hy Hl Hsx Hsy Hox Hoy a Ha.
        destruct (in_dec string_dec a ys) as [H|Hna]; [exact H|exfalso].
        destruct (Hswap xs ys Hx Hy Hl a Ha Hna) as (b & Hb & Hnb).
        pose proof (Hsx a Ha) as Hia. pose proof (Hsy b Hb) as Hib.
        apply in_map_iff in Hia. destruct Hia as ([a' wa] & Ea & Hia).
        apply in_map_iff in Hib. destruct Hib as ([b' wb] & Eb & Hib).
        simpl in Ea, Eb. subst a' b'.
        pose proof (Hox a wa b wb Hia Hib Ha Hnb) as O1.
        pose proof (Hoy b wb a wa Hib Hia Hb Hna) as O2.
        apply frac_lt_asym in O1. congruence. }
      assert (Hord'' : forall c1 w1 c2 w2, In (c1, w1) weights -> In (c2, w2) weights ->
                 In c1 cs' -> ~ In c2 cs' ->
                 frac_lt ((inject_Z (n_total * w2) / inject_Z (sum (map snd weights))
                           - inject_Z (n_total * w2 / sum (map snd weights)))%Q, c2)
                         ((inject_Z (n_total * w1) / inject_Z (sum (map snd weights))
                           - inject_Z (n_total * w1 / sum (map snd weights)))%Q, c1)
                 = true).
      { intros c1 w1 c2 w2 H1 H2. apply Hord'; eapply Permutation_in; eassumption. }
      assert (Hsub'' : forall a, In a cs' -> In a (map fst weights)).
      { intros a Ha. eapply Permutation_in;
          [apply Permutation_sym, Permutation_map; exact Hperm|now apply Hsub']. }
      intros a. split.
      - apply (Hone cs cs'); assumption.
      - apply (Hone cs' cs); try assumption. now symmetry. }
    destruct (in_dec string_dec c cs) as [H|H], (in_dec string_dec c cs') as [H'|H'];
      try reflexivity; exfalso; [apply H'|apply H]; now apply Hsame.
  - (* no slot to hand out *)
    unfold proportional_quotas. rewrite Hsum.
    replace ((sum (map snd weights) =? 0) || (n_total <=? 0)) with true
      by (symmetry; apply orb_true_iff; right; lia).
    rewrite !dict_of_items_nodup
      by (rewrite map_map; cbn [fst]; assumption).
    unfold dict_at.
    rewrite (dict_get_of_entry _ c 0), (dict_get_of_entry _ c 0); try reflexivity.
    + unfold keys. rewrite map_map. cbn [fst]. exact Hnd'.
    + apply in_map_iff. now exists (c, w).
    + unfold keys. rewrite map_map. cbn [fst]. exact Hnd.
    + apply in_map_iff. now exists (c, w).
  - (* the total weight is not positive *)
    destruct (Z.eq_dec (sum (map snd weights)) 0) as [E|E].
    + unfold proportional_quotas. rewrite Hsum, E. cbn [Z.eqb orb].
      rewrite !dict_of_items_nodup
        by (rewrite map_map; cbn [fst]; assumption).
      unfold dict_at.
      rewrite (dict_get_of_entry _ c 0), (dict_get_of_entry _ c 0); try reflexivity.
      * unfold keys. rewrite map_map. cbn [fst]. exact Hnd'.
      * apply in_map_iff. now exists (c, w).
      * unfold keys. rewrite map_map. cbn [fst]. exact Hnd.
      * apply in_map_iff. now exists (c, w).
    + lia.
Qed.

(** The property at work: the weights of the example in two orders. *)
Lemma quotas_listing_order_witness :
  dict_at 0 (proportional_quotas [("romantic", 5); ("scenic", 3); ("cafes", 2)]%string 5)
          "scenic"
  = dict_at 0 (proportional_quotas [("cafes", 2); ("romantic", 5); ("scenic", 3)]%string 5)
            "scenic".
Proof.
  apply quotas_listing_order.
  - repeat constructor; simpl; intuition discriminate.
  - simpl. lia.
  - apply Permutation_sym.
    apply (Permutation_cons_app [("romantic", 5); ("scenic", 3)]%string []).
    reflexivity.
Defined.

End ListingOrder.

(** * Further properties of the weather adapter *)

Section RainyDay.

(** X9.  [prefer_indoor_if_rain] never changes the number of categories,
    whatever the list and the forecast. *)
Theorem prefer_indoor_keeps_length (categories : list string) (fc : option forecast) :
  length (prefer_indoor_if_rain categories fc) = length categories.
Proof.
  unfold prefer_indoor_if_rain.
  destruct fc as [f|]; [|reflexivity].
  destruct (avg_pop f) as [p|]; [|reflexivity].
  destruct (negb (Qle_bool (1 # 2) p)); [reflexivity|].
  unfold slice_to, slice_from. cbn [Z.leb Z.compare Z.to_nat Pos.to_nat Pos.iter_op Nat.add].
  pose proof (Permutation_length (filter_partition_perm indoor categories)) as Hl.
  rewrite length_app, length_firstn, length_skipn. lia.
Qed.

Lemma filter_twice {A : Type} (f : A -> bool) (l : list A) :
  filter f (filter f l) = filter f l
  /\ filter (fun x => negb (f x)) (filter f l) = []
  /\ filter f (filter (fun x => negb (f x)) l) = []
  /\ filter (fun x => negb (f x)) (filter (fun x => negb (f x)) l)
     = filter (fun x => negb (f x)) l.
Proof.
  induction l as [|x r (IH1 & IH2 & IH3 & IH4)]; simpl; [tauto|].
  destruct (f x) eqn:E; simpl; rewrite ?E; simpl; repeat split; congruence.
Qed.

(** X10.  Under rain ([avg_pop >= 0.5]) a day of at most three categories
    comes out as its indoor categories followed by its outdoor ones, each
    group in its input order; nothing is lost or added, and adapting the
    result once more changes nothing. *)
Theorem prefer_indoor_rainy_day (categories : list string) (f : forecast) (p : Q) :
  avg_pop f = Some p -> (1 # 2 <= p)%Q -> (length categories <= 3)%nat ->
  let adapted := prefer_indoor_if_rain categories (Some f) in
  adapted = filter indoor categories ++ filter (fun c => negb (indoor c)) categories
  /\ Permutation categories adapted
  /\ prefer_indoor_if_rain adapted (Some f) = adapted.
Proof.
  intros Hp Hle Hlen. cbv zeta.
  destruct (prefer_indoor_short_list categories f p Hp Hle Hlen) as [Heq Hperm].
  split; [exact Heq|]. split; [exact Hperm|].
  assert (Hlen' : (length (prefer_indoor_if_rain categories (Some f)) <= 3)%nat)
    by now rewrite prefer_indoor_keeps_length.
  destruct (prefer_indoor_short_list _ f p Hp Hle Hlen') as [Heq' _].
  rewrite Heq'. rewrite Heq at 1 2. rewrite !filter_app.
  destruct (filter_twice indoor categories) as (-> & -> & -> & ->).
  now rewrite app_nil_r.
Qed.

(** The property at work: a rainy day with one indoor category. *)
Lemma prefer_indoor_rainy_day_witness :
  let rain := {| date := None; avg_temp_c := None;
                 avg_pop := Some (1 # 2)%Q; condition := None |} in
  prefer_indoor_if_rain ["parks"; "museums"; "cafes"]%string (Some rain)
  = ["museums"; "cafes"; "parks"]%string.
Proof.
  intros rain.
  exact (proj1 (prefer_indoor_rainy_day ["parks"; "museums"; "cafes"]%string rain (1 # 2)%Q
                                        eq_refl ltac:(lra) ltac:(simpl; lia))).
Defined.

End RainyDay.

(** * Further properties of the candidate scorer *)

Section Selection.
Variables radians sin cos sqrt : Q -> Q.
Variable atan2 : Q -> Q -> Q.

Local Abbreviation top := (score_candidates radians sin cos sqrt atan2) (only parsing).

Lemma slice_to_length {A B : Type} (k : Z) (l : list A) (l' : list B) :
  length l = length l' -> length (slice_to k l) = length (slice_to k l').
Proof.
  intros H. unfold slice_to. destruct (0 <=? k); rewrite !length_firstn, H; reflexivity.
Qed.

Lemma slice_to_in {A : Type} (k : Z) (l : list A) (x : A) :
  In x (slice_to k l) -> In x l.
Proof. unfold slice_to. destruct (0 <=? k); apply in_firstn. Qed.

Lemma scored_items_snd (start_latlng : latlng) (items : list candidate) :
  map snd (scored_items radians sin cos sqrt atan2 start_latlng items) = items.
Proof.
  rewrite (scored_items_map radians sin cos sqrt atan2 start_latlng items).
  rewrite map_map. cbn [snd]. apply map_id.
Qed.

(** X11.  [score_candidates] only selects: every candidate it returns was
    given to it; it returns as many candidates as the slice [[:k]] of the
    input has ([min(k, len)] for [k >= 0], [len + k] of them, if any, for a
    negative [k]); and with [k >= len] it returns all of them, reordered. *)
Theorem score_candidates_selects
  (start_latlng : latlng) (items : list candidate) (k : Z) :
  Forall (fun x => In x items) (top start_latlng items k)
  /\ length (top start_latlng items k) = length (slice_to k items)
  /\ (Z.of_nat (length items) <= k -> Permutation items (top start_latlng items k)).
Proof.
  destruct items as [|x0 r0].
  { simpl. unfold slice_to. destruct (0 <=? k); rewrite firstn_nil; repeat split;
      constructor. }
  set (items := x0 :: r0).
  rewrite (score_candidates_nonempty radians sin cos sqrt atan2 start_latlng items k)
    by discriminate.
  set (scored := scored_items radians sin cos sqrt atan2 start_latlng items).
  set (ranked := sorted_reverse (fun a b => Qltb (fst a) (fst b)) scored).
  assert (Hperm : Permutation items (map snd ranked)).
  { rewrite <- (scored_items_snd start_latlng items). fold scored.
    apply Permutation_map, sorted_reverse_perm. }
  split; [|split].
  - apply Forall_forall. intros x Hx. apply in_map_iff in Hx.
    destruct Hx as (sx & <- & Hsx). apply slice_to_in in Hsx.
    apply (Permutation_in _ (Permutation_sym Hperm)). now apply in_map.
  - rewrite length_map. apply slice_to_length.
    apply Permutation_length in Hperm. now rewrite length_map in Hperm.
  - intros Hk. unfold slice_to.
    replace (0 <=? k) with true by (symmetry; apply Z.leb_le; lia).
    rewrite firstn_all2; [exact Hperm|].
    apply Permutation_length in Hperm. rewrite length_map in Hperm. lia.
Qed.

End Selection.

(** * Further properties of the itinerary assembler *)

Section Outcomes.
Variables radians sin cos sqrt : Q -> Q.
Variable atan2 : Q -> Q -> Q.
Variable PREFS : list pref_row.
Variable geocode_city : string -> option latlng.
Variable daily_forecast : Q -> Q -> Z -> list forecast.
Variable candidates_for_category : latlng -> Q -> string -> Z -> list candidate.
Variable groq_refine : string -> latlng -> string -> list day_plan -> outcome (option string).

Local Abbreviation top := (score_candidates radians sin cos sqrt atan2) (only parsing).
Local Abbreviation shortlist :=
  (shortlists radians sin cos sqrt atan2 candidates_for_category) (only parsing).
Local Abbreviation day :=
  (plan_day radians sin cos sqrt atan2 candidates_for_category) (only parsing).
Local Abbreviation all_days :=
  (plan_days radians sin cos sqrt atan2 candidates_for_category) (only parsing).
Local Abbreviation itinerary_of :=
  (generate_itinerary radians sin cos sqrt atan2 PREFS geocode_city daily_forecast
                      candidates_for_category) (only parsing).
Local Abbreviation type_error :=
  (TypeError "list indices must be integers or slices, not str") (only parsing).

(** A category that is searched for and finds a place. *)
Local Abbreviation finds ll :=
  (fun c : string =>
     negb (String.eqb c "") && nonempty (candidates_for_category ll (snd ll) c 10))
  (only parsing).

Lemma top_nil (ll : latlng) (items : list candidate) :
  top ll items 3 = [] <-> items = [].
Proof.
  split; [|now intros ->].
  intros H. destruct (score_candidates_selects radians sin cos sqrt atan2 ll items 3)
    as (_ & Hlen & _).
  rewrite H in Hlen. destruct items; [reflexivity|discriminate].
Qed.

Lemma shortlist_picks (ll : latlng) (cats : list string) :
  Forall (fun sl => snd sl <> []) (shortlist ll cats).
Proof.
  induction cats as [|c r IH]; simpl; [constructor|].
  destruct (top ll _ 3) eqn:E; [exact IH|]. constructor; [discriminate|exact IH].
Qed.

Lemma shortlist_nil (ll : latlng) (cats : list string) :
  shortlist ll cats = []
  <-> forall c, In c cats -> candidates_for_category ll (snd ll) c 10 = [].
Proof.
  induction cats as [|c r IH]; simpl; [tauto|].
  destruct (top ll _ 3) eqn:E.
  - apply top_nil in E. rewrite IH. split.
    + intros H c' [<-|Hc']; [exact E|now apply H].
    + intros H c' Hc'. apply H. now right.
  - split; [discriminate|]. intros H. specialize (H c (or_introl eq_refl)).
    rewrite H in E. discriminate.
Qed.

Lemma chosen_all (sl : list (string * list candidate)) :
  Forall (fun s => snd s <> []) sl -> filter nonempty (map snd sl) = map snd sl.
Proof.
  induction 1 as [|[c picks] r Hp _ IH]; simpl; [reflexivity|].
  destruct picks; [now elim Hp|]. simpl. now rewrite IH.
Qed.

(** A day is planned, with no slot and no alternative, when none of its
    categories is short-listed; otherwise the router is given lists of
    picks and the day raises. *)
Lemma plan_day_outcome (ll : latlng) (forecasts : list forecast)
      (i : nat) (cats0 : list string) :
  let cats := prefer_indoor_if_rain (filter (fun c => negb (String.eqb c "")) cats0)
                                    (nth_error forecasts i) in
  day ll forecasts i cats0
  = match shortlist ll cats with
    | [] => Ok {| plan_date := match nth_error forecasts i with
                               | Some f => date f
                               | None => None
                               end;
                  plan_weather := nth_error forecasts i;
                  plan_categories := cats;
                  plan_slots := [];
                  plan_alternatives := [] |}
    | _ :: _ => Raise type_error
    end.
Proof.
  cbv zeta. unfold plan_day.
  rewrite (chosen_all _ (shortlist_picks ll _)).
  destruct (shortlists _ _ _ _ _ _ ll _) as [|sl r]; reflexivity.
Qed.

Lemma prefer_indoor_short_perm (categories : list string) (fc : option forecast) :
  (length categories <= 3)%nat ->
  Permutation categories (prefer_indoor_if_rain categories fc).
Proof.
  intros Hlen. destruct fc as [f|]; [|reflexivity].
  destruct (avg_pop f) as [p|] eqn:Hp; [|unfold prefer_indoor_if_rain; now rewrite Hp].
  destruct (Qlt_le_dec p (1 # 2)) as [Hlt|Hle].
  - rewrite prefer_indoor_dry; [reflexivity|]. right. now exists f, p.
  - now apply (prefer_indoor_short_list categories f p).
Qed.

Lemma day_finds (ll : latlng) (fc : option forecast) (cats0 : list string) :
  (length cats0 <= 3)%nat ->
  (shortlist ll (prefer_indoor_if_rain
                   (filter (fun c => negb (String.eqb c "")) cats0) fc) = []
   <-> existsb (finds ll) cats0 = false).
Proof.
  intros Hlen. rewrite shortlist_nil.
  assert (Hf : (length (filter (fun c => negb (String.eqb c "")) cats0) <= 3)%nat).
  { pose proof (filter_length_le (fun c => negb (String.eqb c "")) cats0). lia. }
  pose proof (prefer_indoor_short_perm _ fc Hf) as Hperm.
  rewrite <- not_true_iff_false, existsb_exists. split.
  - intros H (c & Hc & Hfind). apply andb_true_iff in Hfind. destruct Hfind as [Hne Hfind].
    rewrite H in Hfind; [discriminate|].
    apply (Permutation_in _ Hperm). apply filter_In. tauto.
  - intros H c Hc. apply (Permutation_in _ (Permutation_sym Hperm)) in Hc.
    apply filter_In in Hc. destruct Hc as [Hc Hne].
    destruct (candidates_for_category ll (snd ll) c 10) eqn:E; [reflexivity|].
    elim H. exists c. split; [exact Hc|]. now rewrite Hne, E.
Qed.

Lemma plan_days_outcome (ll : latlng) (forecasts : list forecast)
      (per : list (list string)) (i : nat) :
  Forall (fun chunk => (length chunk <= 3)%nat) per ->
  if existsb (finds ll) (concat per)
  then all_days ll forecasts i per = Raise type_error
  else exists plan,
      all_days ll forecasts i per = Ok plan
      /\ length plan = length per
      /\ Forall (fun d => plan_slots d = [] /\ plan_alternatives d = []) plan
      /\ forall j d, nth_error plan j = Some d ->
           plan_weather d = nth_error forecasts (i + j)
           /\ plan_date d = match nth_error forecasts (i + j) with
                            | Some f => date f
                            | None => None
                            end.
Proof.
  intros Hall. revert i. induction Hall as [|chunk r Hlen _ IH]; intros i.
  - simpl. exists []. split; [reflexivity|]. split; [reflexivity|].
    split; [apply Forall_nil|]. intros [|j] d; discriminate.
  - cbn [concat plan_days]. rewrite existsb_app, plan_day_outcome.
    pose proof (day_finds ll (nth_error forecasts i) chunk Hlen) as Hday.
    destruct (existsb _ chunk) eqn:Ec.
    + destruct (shortlists _ _ _ _ _ _ ll _) as [|sl rest]; [|reflexivity].
      discriminate (proj1 Hday eq_refl).
    + rewrite (proj2 Hday eq_refl). cbn [orb bind]. specialize (IH (S i)).
      destruct (existsb _ (concat r)).
      * now rewrite IH.
      * destruct IH as (plan & -> & Hl & Hs & Hw). cbn [bind].
        eexists. split; [reflexivity|]. split; [simpl; now rewrite Hl|]. split.
        -- constructor; [split; reflexivity|exact Hs].
        -- intros [|j] d; cbn [nth_error].
           ++ intros [= <-]. rewrite Nat.add_0_r. split; reflexivity.
           ++ intros Hd. replace (i + S j)%nat with (S i + j)%nat by lia.
              now apply Hw.
Qed.

Lemma sequence_within_days (traveler_type : string) (days : Z) :
  firstn (3 * Z.to_nat days) (build_weighted_sequence PREFS traveler_type days)
  = build_weighted_sequence PREFS traveler_type days.
Proof.
  apply firstn_all2.
  destruct (build_weighted_sequence_loop PREFS traveler_type days) as [-> | ->];
    [simpl; lia|].
  unfold loop_state.
  set (weights := cat_weights (select_traveler PREFS traveler_type)).
  pose proof (st_bounded (Z.max (days * 3 - 1) 0) (dict_of_items weights)
                (initial_state weights (Z.max (days * 3 - 1) 0))
                (initial_remaining _ _ (cat_weights_nodup _)) eq_refl
                (Z.to_nat (Z.max (days * 3 - 1) 0)) ltac:(lia)).
  lia.
Qed.


(** X13.  An itinerary that is returned echoes the destination and the
    traveler type, carries the stay location or else the geocoded one, has
    one day plan for each requested day, each with the forecast of its day
    (none beyond the forecasts), and holds no place at all: every day plan
    has no slot and no alternative.  Without [use_groq] it has no notes. *)
Theorem generate_itinerary_shape
  (traveler_type destination : string) (days : Z)
  (stay_latlng : option latlng) (use_groq : bool) (it : itinerary) :
  itinerary_of groq_refine traveler_type destination days stay_latlng use_groq = Ok it ->
  it_destination it = destination
  /\ it_traveler_type it = traveler_type
  /\ Some (it_latlng it)
     = match stay_latlng with Some ll => Some ll | None => geocode_city destination end
  /\ length (it_plan it) = Z.to_nat days
  /\ Forall (fun d => plan_slots d = [] /\ plan_alternatives d = []) (it_plan it)
  /\ (forall j d, nth_error (it_plan it) j = Some d ->
        plan_weather d
        = nth_error (daily_forecast (fst (it_latlng it)) (snd (it_latlng it)) days) j)
  /\ (use_groq = false -> it_llm_notes it = None).
Proof.
  unfold generate_itinerary.
  destruct (match stay_latlng with Some ll => Some ll | None => geocode_city destination end)
    as [ll|]; [|discriminate].
  destruct (sequence_to_days_chunks (build_weighted_sequence PREFS traveler_type days) days)
    as (Hlen & Hchunks & _).
  pose proof (plan_days_outcome ll (daily_forecast (fst ll) (snd ll) days) _ 0 Hchunks) as H.
  destruct (existsb _ _).
  - rewrite H. discriminate.
  - destruct H as (plan & -> & Hl & Hs & Hw). cbn [bind]. intros [= <-].
    cbn [it_destination it_traveler_type it_latlng it_plan it_llm_notes].
    repeat split; try assumption.
    + now rewrite Hl.
    + intros j d Hd. now apply (Hw j d).
    + now intros ->.
Qed.

End Outcomes.

(** The property at work: a traveler whose only category finds no place. *)
Lemma generate_itinerary_shape_witness :
  let PREFS :=
    [ {| row_traveler_type := "solo"; row_cat_norm := "parks"; row_weight := 1 |} ]%string in
  exists it,
    generate_itinerary Sample.radians Sample.sin Sample.cos Sample.sqrt Sample.atan2
                       PREFS (fun _ => Some (0%Q, 0%Q)) (fun _ _ _ => [])
                       (fun _ _ _ _ => []) (fun _ _ _ _ => Ok None)
                       "solo" "Paris" 1 None false
    = Ok it
    /\ length (it_plan it) = Z.to_nat 1.
Proof.
  intros PREFS. eexists. split; [reflexivity|].
  refine (proj1 (proj2 (proj2 (proj2
            (generate_itinerary_shape
               Sample.radians Sample.sin Sample.cos Sample.sqrt Sample.atan2
               PREFS (fun _ => Some (0%Q, 0%Q)) (fun _ _ _ => [])
               (fun _ _ _ _ => []) (fun _ _ _ _ => Ok None)
               "solo"%string "Paris"%string 1 None false _ _))))).
  reflexivity.
Defined.

Section Narrative.
Variables radians sin cos sqrt : Q -> Q.
Variable atan2 : Q -> Q -> Q.
Variable PREFS : list pref_row.
Variable geocode_city : string -> option latlng.
Variable daily_forecast : Q -> Q -> Z -> list forecast.
Variable candidates_for_category : latlng -> Q -> string -> Z -> list candidate.

Local Abbreviation itinerary_of :=
  (generate_itinerary radians sin cos sqrt atan2 PREFS geocode_city daily_forecast
                      candidates_for_category) (only parsing).

(** X14.  The narrative generator never decides the outcome: whatever
    [groq_refine] returns or raises, and with [use_groq] set or not, the
    call raises what it raises without the narrative, or returns the same
    itinerary up to [llm_notes]; the notes are [None] when the generator
    raises. *)
Theorem narrative_never_aborts
  (groq_refine groq_refine' : string -> latlng -> string -> list day_plan
                              -> outcome (option string))
  (traveler_type destination : string) (days : Z)
  (stay_latlng : option latlng) (use_groq : bool) :
  match itinerary_of groq_refine traveler_type destination days stay_latlng use_groq with
  | Raise e =>
      itinerary_of groq_refine' traveler_type destination days stay_latlng false = Raise e
  | Ok it =>
      itinerary_of groq_refine' traveler_type destination days stay_latlng false
      = Ok {| it_destination := it_destination it;
              it_latlng := it_latlng it;
              it_traveler_type := it_traveler_type it;
              it_plan := it_plan it;
              it_llm_notes := None |}
      /\ ((forall e, groq_refine destination (it_latlng it) traveler_type (it_plan it)
                     = Raise e -> it_llm_notes it = None))
  end.
Proof.
  unfold generate_itinerary.
  destruct (match stay_latlng with Some ll => Some ll | None => geocode_city destination end)
    as [ll|]; [|reflexivity].
  destruct (plan_days _ _ _ _ _ _ ll _ 0 _) as [plan|e]; cbn [bind]; [|reflexivity].
  cbn [it_destination it_latlng it_traveler_type it_plan it_llm_notes].
  split; [reflexivity|]. intros e He. rewrite He. now destruct use_groq.
Qed.

End Narrative.

(** * The candidates of a category *)

Import Places.

Section CandidateSearch.
Variable E : Type.
Variables Lat Lng : Type.
Variable places_text_search : string -> Lat -> Lng -> Z -> reply E (list hit).
Variable lat : Lat.
Variable lng : Lng.
Variable cat : string.
Variable max_results : Z.

Lemma id_eqb_eq (a b : option string) : id_eqb a b = true <-> a = b.
Proof.
  destruct a as [x|], b as [y|]; cbn; try (split; congruence).
  rewrite String.eqb_eq. split; congruence.
Qed.

Lemma seen_has_in (seen : seen_dict) (key : option string) :
  seen_has seen key = true <-> In key (map fst seen).
Proof.
  unfold seen_has. rewrite existsb_exists, in_map_iff. split.
  - intros [kv [Hin Heq]]. apply id_eqb_eq in Heq. now exists kv.
  - intros [kv [Heq Hin]]. exists kv. split; [exact Hin|]. now apply id_eqb_eq.
Qed.

Lemma search_all_found (queries : list string) (hitlists : list (list hit)) :
  Forall2 (fun q hits => places_text_search q lat lng max_results = Found hits)
          queries hitlists ->
  forall seen,
    search_all E Lat Lng places_text_search lat lng cat max_results queries seen
    = Found (fold_left (note cat) (concat hitlists) seen).
Proof.
  induction 1 as [|q hits queries hitlists Hq _ IH]; intros seen; cbn.
  - reflexivity.
  - rewrite Hq, fold_left_app. apply IH.
Qed.

Lemma ordpairs_snoc {A : Type} (R : A -> A -> Prop) (l : list A) (x : A) :
  ForallOrdPairs R l -> Forall (fun y => R y x) l -> ForallOrdPairs R (l ++ [x]).
Proof.
  induction 1 as [|y l Hy Hl IH]; intros Hx; cbn.
  - constructor; constructor.
  - inversion Hx; subst. constructor.
    + apply Forall_app. split; [exact Hy|]. now constructor.
    + now apply IH.
Qed.

Lemma ordpairs_impl {A : Type} (R R' : A -> A -> Prop) (l : list A) :
  (forall a b, R a b -> R' a b) -> ForallOrdPairs R l -> ForallOrdPairs R' l.
Proof.
  intros Himp. induction 1 as [|y l Hy Hl IH]; constructor.
  - revert Hy. apply Forall_impl. intros b. apply Himp.
  - exact IH.
Qed.

Lemma noted_nil : noted cat [] [].
Proof.
  unfold noted. cbn. refine (conj _ (conj _ (conj _ (conj _ (conj _ _)))));
    try constructor; easy.
Qed.

Lemma noted_step (done : list hit) (seen : seen_dict) (p : hit) :
  noted cat done seen -> noted cat (done ++ [p]) (note cat seen p).
Proof.
  unfold noted.
  intros (Hk & Hn & Hc & Ha & Hf & Ho).
  assert (Hfrom : forall k, In k (map fst seen) -> In k (map hit_place_id done)).
  { intros k Hin. rewrite Hk in Hin. apply in_map_iff in Hin.
    destruct Hin as [r [<- Hr]].
    destruct (Hf r Hr) as (l1 & p' & l2 & -> & -> & _).
    rewrite map_app. apply in_or_app. right. now left. }
  assert (Hold : ForallOrdPairs
      (fun r1 r2 => exists l1 l2, done ++ [p] = l1 ++ l2
                    /\ In (place_id r1) (map hit_place_id l1)
                    /\ ~ In (place_id r2) (map hit_place_id l1))
      (map snd seen)).
  { revert Ho. apply ordpairs_impl.
    intros a b (l1 & l2 & -> & H1 & H2).
    exists l1, (l2 ++ [p]). rewrite <- app_assoc. now split. }
  unfold note.
  destruct (seen_has seen (hit_place_id p)) eqn:Hs.
  - apply seen_has_in in Hs.
    refine (conj _ (conj _ (conj _ (conj _ (conj _ _))))); try assumption.
    + intros p' Hin. apply in_app_or in Hin. destruct Hin as [Hin|[<-|[]]]; auto.
    + intros r Hr. destruct (Hf r Hr) as (l1 & p' & l2 & -> & Hr' & Hnew).
      exists l1, p', (l2 ++ [p]). rewrite <- app_assoc. now split.
  - assert (Hnew : ~ In (hit_place_id p) (map fst seen)).
    { intros Hin. apply seen_has_in in Hin. congruence. }
    refine (conj _ (conj _ (conj _ (conj _ (conj _ _)))));
      rewrite ?map_app; cbn [map fst snd].
    + rewrite Hk. reflexivity.
    + apply NoDup_app. 
      * exact Hn.
      * constructor; [easy|constructor].
      * intros k Hin [<-|[]]. now apply Hnew.
    + apply Forall_app. split; [exact Hc|]. now constructor.
    + intros p' Hin. apply in_or_app.
      apply in_app_or in Hin. destruct Hin as [Hin|[<-|[]]]; [left; auto|right; now left].
    + intros r Hr. apply in_app_or in Hr. destruct Hr as [Hr|[<-|[]]].
      * destruct (Hf r Hr) as (l1 & p' & l2 & -> & Hr' & Hfirst).
        exists l1, p', (l2 ++ [p]). rewrite <- app_assoc. now split.
      * exists done, p, []. split; [reflexivity|]. split; [reflexivity|].
        intros Hin. apply in_map_iff in Hin. destruct Hin as [p' [Heq Hin]].
        apply Hnew. rewrite <- Heq. now apply Ha.
    + apply ordpairs_snoc; [exact Hold|].
      apply Forall_forall. intros r Hr. exists done, [p]. split; [reflexivity|].
      cbn [place_id with_category]. split.
      * apply Hfrom. rewrite Hk. now apply in_map.
      * intros Hin. apply in_map_iff in Hin. destruct Hin as [p' [Heq Hin]].
        apply Hnew. rewrite <- Heq. now apply Ha.
Qed.

Lemma noted_fold (hits done : list hit) (seen : seen_dict) :
  noted cat done seen -> noted cat (done ++ hits) (fold_left (note cat) hits seen).
Proof.
  revert done seen. induction hits as [|p hits IH]; intros done seen H; cbn.
  - now rewrite app_nil_r.
  - replace (done ++ p :: hits) with ((done ++ [p]) ++ hits)
      by now rewrite <- app_assoc.
    apply IH. now apply noted_step.
Qed.

(** X15.  When every search of the category returns,
    [candidates_for_category] returns places with pairwise distinct place
    ids, each carrying the category asked for; every place found by any
    of the queries is represented by its id; each returned place is the
    first hit of its id, in the order of the queries and of their results
    (later hits of the same id are dropped, whatever they hold); and the
    places stand in the order in which their ids were first found: for
    [r1] before [r2] some prefix of the hits holds the id of [r1] and not
    yet that of [r2]. *)
Theorem candidates_for_category_first_hits (hitlists : list (list hit)) :
  Forall2 (fun q hits => places_text_search q lat lng max_results = Found hits)
          (queries_for cat) hitlists ->
  exists res,
    candidates_for_category E Lat Lng places_text_search lat lng cat max_results
    = Found res
    /\ NoDup (map place_id res)
    /\ Forall (fun r => category r = cat) res
    /\ (forall p, In p (concat hitlists) -> In (hit_place_id p) (map place_id res))
    /\ (forall r, In r res ->
          exists l1 p l2, concat hitlists = l1 ++ p :: l2
                          /\ r = with_category p cat
                          /\ ~ In (hit_place_id p) (map hit_place_id l1))
    /\ ForallOrdPairs
         (fun r1 r2 => exists l1 l2, concat hitlists = l1 ++ l2
                       /\ In (place_id r1) (map hit_place_id l1)
                       /\ ~ In (place_id r2) (map hit_place_id l1))
         res.
Proof.
  intros Hall. unfold candidates_for_category.
  rewrite (search_all_found _ _ Hall).
  destruct (noted_fold (concat hitlists) [] [] noted_nil)
    as (Hk & Hn & Hc & Ha & Hf & Ho).
  cbn [app] in *.
  eexists. split; [reflexivity|]. rewrite <- Hk. tauto.
Qed.

Lemma search_all_failed (qs1 qs2 : list string) (q : string) (e : E) :
  Forall (fun q' => exists hits, places_text_search q' lat lng max_results = Found hits)
         qs1 ->
  places_text_search q lat lng max_results = Failed e ->
  forall seen,
    search_all E Lat Lng places_text_search lat lng cat max_results
               (qs1 ++ q :: qs2) seen
    = Failed e.
Proof.
  intros Hok Hq. induction Hok as [|q' qs1 [hits Hq'] _ IH]; intros seen; cbn.
  - now rewrite Hq.
  - rewrite Hq'. apply IH.
Qed.

(** X16.  A search that raises ends the call: when the queries before
    [q] return and the search of [q] raises [e], so does
    [candidates_for_category]; the places already found are lost and the
    queries after [q] are not sent. *)
Theorem candidates_for_category_aborts (qs1 qs2 : list string) (q : string) (e : E) :
  queries_for cat = qs1 ++ q :: qs2 ->
  Forall (fun q' => exists hits, places_text_search q' lat lng max_results = Found hits)
         qs1 ->
  places_text_search q lat lng max_results = Failed e ->
  candidates_for_category E Lat Lng places_text_search lat lng cat max_results
  = Failed e.
Proof.
  intros Hqs Hok Hq. unfold candidates_for_category.
  now rewrite Hqs, (search_all_failed qs1 qs2 q e Hok Hq).
Qed.

Lemma dict_get_value {V : Type} (d : dict V) (k : string) (v : V) :
  dict_get d k = Some v -> In v (values d).
Proof.
  induction d as [|[k' v'] r IH]; cbn; [discriminate|].
  destruct (String.eqb k' k); [intros [= ->]; now left|right; auto].
Qed.

Lemma queries_for_nonempty (c : string) : queries_for c <> [].
Proof.
  unfold queries_for. destruct (dict_get CATEGORY_QUERY c) as [qs|] eqn:Hget;
    [|discriminate].
  apply dict_get_value in Hget.
  assert (Hall : Forall (fun qs => qs <> []) (values CATEGORY_QUERY))
    by (repeat constructor; discriminate).
  exact (proj1 (Forall_forall _ _) Hall qs Hget).
Qed.

(** X17.  [candidates_for_category] never answers without a search:
    every category, in [CATEGORY_QUERY] or not, has at least one query, so
    when the search raises [e] for every query (as it does while
    [FOURSQUARE_API_KEY] is not set) the call raises [e], whatever the
    category. *)
Theorem candidates_for_category_needs_search (e : E) :
  (forall q, places_text_search q lat lng max_results = Failed e) ->
  candidates_for_category E Lat Lng places_text_search lat lng cat max_results
  = Failed e.
Proof.
  intros Hfail. unfold candidates_for_category.
  destruct (queries_for cat) as [|q qs] eqn:Hqs.
  - now destruct (queries_for_nonempty cat).
  - cbn. now rewrite Hfail.
Qed.

End CandidateSearch.

Lemma candidates_for_category_first_hits_witness :
  let shrine := {| hit_name := Some "Shrine"%string; hit_rating := 4%Q;
                   hit_address := None; hit_place_id := Some "a1"%string;
                   hit_lat := 0%Q; hit_lng := 0%Q; hit_types := [] |} in
  let search := fun (q : string) (_ _ : Q) (_ : Z) =>
                  @Found unit (list hit) [shrine] in
  exists res,
    candidates_for_category unit Q Q search 0%Q 0%Q "temples"%string 8 = Found res
    /\ NoDup (map place_id res).
Proof.
  intros shrine search.
  destruct (candidates_for_category_first_hits unit Q Q search 0%Q 0%Q
              "temples"%string 8 [[shrine]; [shrine]])
    as (res & Hres & Hn & _).
  - repeat constructor.
  - exists res. split; assumption.
Defined.

Lemma candidates_for_category_aborts_witness :
  let shrine := {| hit_name := Some "Shrine"%string; hit_rating := 4%Q;
                   hit_address := None; hit_place_id := Some "a1"%string;
                   hit_lat := 0%Q; hit_lng := 0%Q; hit_types := [] |} in
  let search := fun (q : string) (_ _ : Q) (_ : Z) =>
                  if String.eqb q "temple"%string then Failed tt else Found [shrine] in
  candidates_for_category unit Q Q search 0%Q 0%Q "temples"%string 8 = Failed tt.
Proof.
  intros shrine search.
  apply (candidates_for_category_aborts unit Q Q search 0%Q 0%Q "temples"%string 8
           ["hindu temple"%string] [] "temple"%string tt).
  - reflexivity.
  - constructor; [|constructor]. exists [shrine]. reflexivity.
  - reflexivity.
Defined.

Lemma candidates_for_category_needs_search_witness :
  candidates_for_category string Q Q
    (fun _ _ _ _ => Failed "FOURSQUARE_API_KEY not set"%string) 0%Q 0%Q "nightlife"%string 8
  = Failed "FOURSQUARE_API_KEY not set"%string.
Proof.
  apply (candidates_for_category_needs_search string Q Q
           (fun _ _ _ _ => Failed "FOURSQUARE_API_KEY not set"%string)
           0%Q 0%Q "nightlife"%string 8).
  intros q. reflexivity.
Defined.
